(** * interval_map: a shallow embedding of src/main.cc

    [interval_map<K,V>] stores a piecewise-constant function as a
    [std::map<K,V>] of breakpoints.  The map is embedded as an association
    list kept in increasing key order; an iterator is embedded as the key of
    the node it points to (a [std::map] node never changes its key and an
    iterator stays attached to its node across insertions and across
    erasures of other nodes), with a distinguished past-the-end iterator.
    Operations whose C++ behaviour is undefined (decrementing [begin()],
    dereferencing [end()] or an erased node) return [None].

    Keys and values are integers: the repository instantiates the template
    at [unsigned int] for both, and the code only compares them, so no
    arithmetic wrap-around is involved.  [lowest] stands for
    [std::numeric_limits<K>::lowest()]. *)

From Stdlib Require Import ZArith List Bool Lia.
Import ListNotations.
Open Scope Z_scope.

Abbreviation K := Z.
Abbreviation V := Z.

Notation "x <- c ;; k" :=
  (match c with Some x => k | None => None end)
  (at level 61, c at next level, right associativity).

(** ** The ordered container *)

Module StdMap.

Definition t := list (K * V).

Inductive iterator := It (k : K) | End.

Definition iterator_eqb (i j : iterator) : bool :=
  match i, j with
  | It a, It b => a =? b
  | End, End => true
  | _, _ => false
  end.

Definition is_end (i : iterator) : bool :=
  match i with End => true | It _ => false end.

(** [m.begin()] *)
Definition begin (m : t) : iterator :=
  match m with [] => End | (k, _) :: _ => It k end.

Fixpoint find (m : t) (k : K) : option V :=
  match m with
  | [] => None
  | (k', v) :: m' => if k =? k' then Some v else find m' k
  end.

(** [it->first] and [it->second] *)
Definition first (m : t) (it : iterator) : option K :=
  match it with
  | It k => _ <- find m k ;; Some k
  | End => None
  end.

Definition second (m : t) (it : iterator) : option V :=
  match it with
  | It k => find m k
  | End => None
  end.

(** [it->second = v] on a live node with key [k] *)
Fixpoint set_second (m : t) (k : K) (v : V) : t :=
  match m with
  | [] => []
  | (k', v') :: m' =>
      if k =? k' then (k', v) :: m' else (k', v') :: set_second m' k v
  end.

(** first node whose key is not less than [key] *)
Fixpoint lower_bound (m : t) (key : K) : iterator :=
  match m with
  | [] => End
  | (k, _) :: m' => if k <? key then lower_bound m' key else It k
  end.

(** first node whose key is greater than [key] *)
Fixpoint upper_bound (m : t) (key : K) : iterator :=
  match m with
  | [] => End
  | (k, _) :: m' => if key <? k then It k else upper_bound m' key
  end.

(** [++it]: the live node [it] points to is left for the node of the next
    greater key, or for [end()] *)
Definition next (m : t) (it : iterator) : option iterator :=
  k <- first m it ;; Some (upper_bound m k).

(** [--it]: [p] is the position before the part of the map still to be
    scanned, [None] while that part starts at [begin()] *)
Fixpoint prev_from (p : option iterator) (m : t) (it : iterator)
  : option iterator :=
  match m with
  | [] => match it with End => p | It _ => None end
  | (k', _) :: m' =>
      match it with
      | It k => if k =? k' then p else prev_from (Some (It k')) m' it
      | End => prev_from (Some (It k')) m' it
      end
  end.

Definition prev (m : t) (it : iterator) : option iterator :=
  prev_from None m it.

(** [insert(hint, {k, v})]: nothing happens when the key is present;
    either way the returned iterator is [It k] *)
Fixpoint insert (m : t) (k : K) (v : V) : t :=
  match m with
  | [] => [(k, v)]
  | (k', v') :: m' =>
      if k <? k' then (k, v) :: m
      else if k =? k' then m
      else (k', v') :: insert m' k v
  end.

Definition remove_keys (p : K -> bool) (m : t) : t :=
  filter (fun kv => negb (p (fst kv))) m.

(** [erase(it)] *)
Definition erase (m : t) (it : iterator) : option t :=
  k <- first m it ;; Some (remove_keys (fun k' => k' =? k) m).

(** [erase(first, last)]: the nodes of the range [first, last) are, in an
    ordered container, those whose key is at least [first]'s and below
    [last]'s *)
Definition erase_range (m : t) (first_ last_ : iterator) : option t :=
  match first_, last_ with
  | End, End => Some m
  | End, It _ => None
  | It _, End =>
      k1 <- first m first_ ;;
      Some (remove_keys (fun k' => k1 <=? k') m)
  | It _, It _ =>
      k1 <- first m first_ ;;
      k2 <- first m last_ ;;
      if k1 <=? k2
      then Some (remove_keys (fun k' => (k1 <=? k') && (k' <? k2)) m)
      else None
  end.

End StdMap.

Import StdMap.

(** ** interval_map *)

Section IntervalMap.

Variable lowest : K.

(** lines 15-18: the constructor *)
Definition interval_map (val : V) : StdMap.t :=
  insert [] lowest val.

(** The local variables of [assign] alive between its parts. *)
Record locals := Locals {
  m_map : StdMap.t;
  begin : iterator;
  eraseBegin : iterator;
  endValue : V;
  erase : bool
}.

(** lines 32-57, "insert keyBegin" *)
Definition assign_keyBegin (m : StdMap.t) (keyBegin : K) (val : V)
  : option locals :=
  let begin := lower_bound m keyBegin in
  let eraseBegin := begin in
  exists_ <- (if negb (is_end begin)
              then (k <- first m begin ;; Some (k =? keyBegin))
              else Some false) ;;
  if exists_ then
    endValue <- second m begin ;;
    m <- (k <- first m begin ;; Some (set_second m k val)) ;;
    eraseBegin <- next m eraseBegin ;;
    let erase := if iterator_eqb eraseBegin End then false else true in
    Some (Locals m begin eraseBegin endValue erase)
  else
    prev <- prev m begin ;;
    endValue <- second m prev ;;
    prev_second <- second m prev ;;
    if negb (prev_second =? val) then
      let it := It keyBegin in
      let m := insert m keyBegin val in
      let begin := it in
      eraseBegin <- next m it ;;
      Some (Locals m begin eraseBegin endValue true)
    else
      Some (Locals m begin eraseBegin endValue true).

(** lines 59-77, "insert keyEnd"; returns the map and [eraseEnd] together
    with the updated [erase] flag *)
Definition assign_keyEnd (l : locals) (keyEnd : K) (val : V)
  : option (StdMap.t * iterator * bool) :=
  let m := m_map l in
  let end_ := lower_bound m keyEnd in
  let eraseEnd := end_ in
  let erase := if iterator_eqb eraseEnd (eraseBegin l) then false
               else erase l in
  missing <- (if is_end end_ then Some true
              else (k <- first m end_ ;; Some (negb (k =? keyEnd)))) ;;
  if missing then
    prev <- prev m end_ ;;
    endValue <- (if negb (iterator_eqb prev (begin l))
                 then second m prev
                 else Some (endValue l)) ;;
    if negb (endValue =? val) then
      let it := It keyEnd in
      let m := insert m keyEnd endValue in
      let eraseEnd := it in
      it <- next m it ;;
      redundant <- (if is_end it then Some false
                    else (v <- second m it ;; Some (v =? endValue))) ;;
      if redundant then
        m <- StdMap.erase m it ;;
        Some (m, eraseEnd, erase)
      else Some (m, eraseEnd, erase)
    else Some (m, eraseEnd, erase)
  else Some (m, eraseEnd, erase).

(** lines 78-79, the removal of the nodes between the two boundaries *)
Definition assign_erase (m : StdMap.t) (erase : bool)
  (eraseBegin eraseEnd : iterator) : option StdMap.t :=
  in_order <- (if erase && negb (is_end eraseBegin)
                         && negb (is_end eraseEnd)
               then (k1 <- first m eraseBegin ;;
                     k2 <- first m eraseEnd ;;
                     Some (k1 <? k2))
               else Some false) ;;
  if in_order then erase_range m eraseBegin eraseEnd else Some m.

(** lines 27-80 *)
Definition assign (m : StdMap.t) (keyBegin keyEnd : K) (val : V)
  : option StdMap.t :=
  if negb (keyBegin <? keyEnd) then Some m
  else
    l <- assign_keyBegin m keyBegin val ;;
    r <- assign_keyEnd l keyEnd val ;;
    let '(m, eraseEnd, erase) := r in
    assign_erase m erase (eraseBegin l) eraseEnd.

(** lines 82-85: [operator[]] *)
Definition lookup (m : StdMap.t) (key : K) : option V :=
  it <- prev m (upper_bound m key) ;;
  second m it.

End IntervalMap.

(** ** Specification vocabulary *)

Definition keys (m : StdMap.t) : list K := map fst m.

Definition below (k : K) (m : StdMap.t) : Prop :=
  Forall (fun kv => fst kv < k) m.

Definition above (k : K) (m : StdMap.t) : Prop :=
  Forall (fun kv => k < fst kv) m.

(** The container keeps its nodes in strictly increasing key order. *)
Fixpoint ordered (m : StdMap.t) : Prop :=
  match m with
  | [] => True
  | kv :: m' => above (fst kv) m' /\ ordered m'
  end.

Fixpoint orderedb (m : StdMap.t) : bool :=
  match m with
  | [] => true
  | kv :: m' => forallb (fun kv' => fst kv <? fst kv') m' && orderedb m'
  end.

(** Representation invariant: ordered, and the first node carries the
    minimum key (invariant I1 of the specification). *)
Definition wf (lowest : K) (m : StdMap.t) : bool :=
  iterator_eqb (StdMap.begin m) (It lowest) && orderedb m.

(** Invariant I2 of the specification: consecutive nodes differ in value. *)
Fixpoint canonical (m : StdMap.t) : bool :=
  match m with
  | [] => true
  | (_, v) :: m' =>
      match m' with
      | [] => true
      | (_, v') :: _ => negb (v =? v') && canonical m'
      end
  end.

(** A call [assign(keyBegin, keyEnd, val)]. *)
Definition call := (K * K * V)%type.

(** The states the program can be in, with the calls that led there (most
    recent first); the arguments are values of the key type, so none is
    below [lowest]. *)
Inductive reachable (lowest : K) : list call -> StdMap.t -> Prop :=
| reach_init v : reachable lowest [] (interval_map lowest v)
| reach_assign hist m b e v m' :
    reachable lowest hist m ->
    lowest <= b -> lowest <= e ->
    assign m b e v = Some m' ->
    reachable lowest ((b, e, v) :: hist) m'.

(** Running a sequence of calls, oldest first. *)
Fixpoint run (m : StdMap.t) (calls : list call) : option StdMap.t :=
  match calls with
  | [] => Some m
  | (b, e, v) :: calls' => m' <- assign m b e v ;; run m' calls'
  end.

(** The reference array of [IntervalMapTest] (lines 94 and 108-109), as a
    function from indices to values. *)
Definition array_assign (A : K -> V) (c : call) : K -> V :=
  let '(b, e, v) := c in
  fun i => if (b <=? i) && (i <? e) then v else A i.

Definition array_run (A : K -> V) (calls : list call) : K -> V :=
  fold_left array_assign calls A.

Definition atleast (k : K) (m : StdMap.t) : Prop :=
  Forall (fun kv => k <= fst kv) m.

Definition atmost (k : K) (m : StdMap.t) : Prop :=
  Forall (fun kv => fst kv <= k) m.

(** The node of key [k], if the option holds its value. *)
Definition entry (k : K) (o : option V) : StdMap.t :=
  match o with Some x => [(k, x)] | None => [] end.

Definition last_key (m : StdMap.t) : K := fst (last m (0, 0)).
Definition last_val (m : StdMap.t) : V := snd (last m (0, 0)).

(** ** [assign] in closed form

    An ordered map splits around a range [keyBegin, keyEnd) into the nodes
    [L] below [keyBegin], the node [B] at [keyBegin] if any, the nodes [M]
    strictly inside, the node [E] at [keyEnd] if any, and the nodes [R]
    above [keyEnd]. *)

Record segments (L : StdMap.t) (B : option V) (M R : StdMap.t) (b e : K)
  : Prop := {
  seg_lt : b < e;
  seg_first : B = None -> L <> [];
  seg_L : ordered L;
  seg_Lb : below b L;
  seg_M : ordered M;
  seg_Ma : above b M;
  seg_Mb : below e M;
  seg_R : ordered R;
  seg_Ra : above e R
}.

(** The [erase] flag after line 63, [end_] being the iterator [end] of
    line 60. *)
Definition flag (l : locals) (end_ : iterator) : bool :=
  if iterator_eqb end_ (eraseBegin l) then false else erase l.

(** The nodes above [keyEnd] once lines 74-75 have removed a redundant
    one. *)
Definition drop_redundant (ev : V) (R : StdMap.t) : StdMap.t :=
  match R with
  | (_, x) :: R' => if x =? ev then R' else R
  | [] => []
  end.

(** What follows the left boundary once [assign] is done; [ev] is the value
    [endValue] holds at line 70. *)
Definition tail_of (ev : V) (M : StdMap.t) (E : option V) (R : StdMap.t)
  (e : K) (v : V) : StdMap.t :=
  match E with
  | Some u => (e, u) :: R
  | None =>
      if ev =? v then match R with [] => M | _ => R end
      else (e, ev) :: drop_redundant ev R
  end.

(** The node at [keyBegin] after lines 32-57. *)
Definition B_after (L : StdMap.t) (B : option V) (v : V) : option V :=
  match B with
  | Some _ => Some v
  | None => if last_val L =? v then None else Some v
  end.

(** The value of [endValue] at line 70. *)
Definition tail_value (L : StdMap.t) (B : option V) (M : StdMap.t) (v : V)
  : V :=
  match B_after L B v, M with
  | Some _, [] => match B with Some w => w | None => last_val L end
  | None, [] => v
  | None, [_] => v
  | _, _ => last_val M
  end.

(** The map [assign] returns on a map split into these segments. *)
Definition assign_result (L : StdMap.t) (B : option V) (M : StdMap.t)
  (E : option V) (R : StdMap.t) (b e : K) (v : V) : StdMap.t :=
  L ++ entry b (B_after L B v) ++ tail_of (tail_value L B M v) M E R e v.

(** The function the map stands for: the value of the last node whose key
    is at most [k], scanning in key order; [d] is the value in force before
    the first node. *)
Fixpoint value_at (d : V) (m : StdMap.t) (k : K) : V :=
  match m with
  | [] => d
  | (k', v') :: m' => if k' <=? k then value_at v' m' k else d
  end.

(** The keys of all calls of a history are at most [hi]. *)
Definition calls_within (hi : K) (hist : list call) : Prop :=
  Forall (fun c : call => fst (fst c) <= hi /\ snd (fst c) <= hi) hist.

(** ** Facts about the container operations *)

Ltac zb :=
  repeat match goal with
  | |- context [?a <? ?b] => destruct (Z.ltb_spec a b)
  | |- context [?a <=? ?b] => destruct (Z.leb_spec a b)
  | |- context [?a =? ?b] => destruct (Z.eqb_spec a b)
  end; try lia; try reflexivity.

Ltac inv_bounds :=
  unfold below, above, atleast, atmost in *;
  repeat match goal with
  | H : Forall _ (_ :: _) |- _ => apply Forall_cons_iff in H; destruct H
  | H : Forall _ (_ ++ _) |- _ => apply Forall_app in H; destruct H
  | H : ordered (_ :: _) |- _ => destruct H
  end; unfold above in *; simpl fst in *.

Ltac bnd :=
  unfold below, above, atleast, atmost, entry in *;
  repeat match goal with
  | |- Forall _ (_ ++ _) => apply Forall_app; split
  | |- Forall _ (_ :: _) => constructor; [simpl; lia | ]
  | |- Forall _ [] => constructor
  | |- Forall _ (match ?o with _ => _ end) => destruct o
  | H : Forall _ ?X |- Forall _ ?X =>
      solve [eapply Forall_impl; [| exact H]; simpl; intros; lia]
  end; try lia.

Lemma iterator_eqb_refl i : iterator_eqb i i = true.
Proof. destruct i; simpl; auto using Z.eqb_refl. Qed.

Lemma iterator_eqb_eq i j : iterator_eqb i j = true <-> i = j.
Proof.
  destruct i, j; simpl; try (split; congruence).
  rewrite Z.eqb_eq. split; congruence.
Qed.

Lemma orderedb_spec m : orderedb m = true <-> ordered m.
Proof.
  induction m as [|kv m IH]; simpl; [tauto|].
  rewrite andb_true_iff, IH, forallb_forall. unfold above.
  rewrite Forall_forall. split; intros [H1 H2]; split; auto; intros x Hx.
  - apply Z.ltb_lt; auto.
  - apply Z.ltb_lt; auto.
Qed.

Lemma ordered_app P S :
  ordered (P ++ S) <->
  ordered P /\ ordered S /\
  (forall kv kv', In kv P -> In kv' S -> fst kv < fst kv').
Proof.
  induction P as [|a P IH]; simpl.
  - intuition.
  - unfold above. rewrite IH, Forall_app, !Forall_forall. split.
    + intros [[H1 H2] (H3 & H4 & H5)]. repeat split; auto.
      intros kv kv' [<-|Hin] Hin'; auto.
    + intros ((H1 & H2) & H3 & H4). repeat split; auto.
Qed.

Lemma below_notin k P : below k P -> ~ In k (keys P).
Proof.
  unfold below, keys. rewrite Forall_forall, in_map_iff.
  intros H (kv & <- & Hin). specialize (H _ Hin). simpl in H. lia.
Qed.

Lemma find_app_notin P S k : ~ In k (keys P) -> find (P ++ S) k = find S k.
Proof.
  induction P as [|[k' x'] P IH]; simpl; auto.
  intros H. destruct (Z.eqb_spec k k'); [exfalso; auto|]. apply IH; auto.
Qed.

Lemma find_pivot P S k x :
  ~ In k (keys P) -> find (P ++ (k, x) :: S) k = Some x.
Proof. intros H. rewrite find_app_notin by auto. simpl. now rewrite Z.eqb_refl. Qed.

Lemma set_second_pivot P S k x v :
  ~ In k (keys P) -> set_second (P ++ (k, x) :: S) k v = P ++ (k, v) :: S.
Proof.
  induction P as [|[k' x'] P IH]; simpl.
  - now rewrite Z.eqb_refl.
  - intros H. destruct (Z.eqb_spec k k'); [exfalso; auto|]. f_equal. apply IH; auto.
Qed.

Lemma lower_bound_app P S key :
  below key P -> lower_bound (P ++ S) key = lower_bound S key.
Proof.
  induction P as [|[k' x'] P IH]; simpl; auto.
  intros H. inv_bounds. zb. apply IH; auto.
Qed.

Lemma lower_bound_begin S key :
  atleast key S -> lower_bound S key = StdMap.begin S.
Proof. destruct S as [|[k x] S]; simpl; auto. intros H. inv_bounds. zb. Qed.

Lemma upper_bound_app P S key :
  atmost key P -> upper_bound (P ++ S) key = upper_bound S key.
Proof.
  induction P as [|[k' x'] P IH]; simpl; auto.
  intros H. inv_bounds. zb. apply IH; auto.
Qed.

Lemma upper_bound_begin S key :
  above key S -> upper_bound S key = StdMap.begin S.
Proof. destruct S as [|[k x] S]; simpl; auto. intros H. inv_bounds. zb. Qed.

Lemma upper_bound_pivot P S k x :
  below k P -> above k S -> upper_bound (P ++ (k, x) :: S) k = StdMap.begin S.
Proof.
  intros HP HS. rewrite upper_bound_app by bnd. simpl.
  rewrite Z.ltb_irrefl. now apply upper_bound_begin.
Qed.

Lemma insert_pivot P S k v :
  below k P -> above k S -> insert (P ++ S) k v = P ++ (k, v) :: S.
Proof.
  induction P as [|[k' x'] P IH]; simpl.
  - intros _ H. destruct S as [|[k' x'] S]; simpl; auto. inv_bounds. zb.
  - intros H1 H2. inv_bounds. zb. f_equal. apply IH; auto.
Qed.

Lemma remove_keys_app p P S :
  remove_keys p (P ++ S) = remove_keys p P ++ remove_keys p S.
Proof. apply filter_app. Qed.

Lemma remove_keys_none p P :
  Forall (fun kv => p (fst kv) = false) P -> remove_keys p P = P.
Proof.
  induction 1 as [|kv P H _ IH]; simpl; auto. now rewrite H, IH.
Qed.

Lemma remove_keys_all p P :
  Forall (fun kv => p (fst kv) = true) P -> remove_keys p P = [].
Proof.
  induction 1 as [|kv P H _ IH]; simpl; auto. now rewrite H, IH.
Qed.

Lemma last_app_nonempty (P S : StdMap.t) d : S <> [] -> last (P ++ S) d = last S d.
Proof.
  induction P as [|a P IH]; simpl; auto. intros H.
  destruct (P ++ S) eqn:E; [|auto].
  apply app_eq_nil in E. destruct E. contradiction.
Qed.

Lemma last_in (P : StdMap.t) d : P <> [] -> In (last P d) P.
Proof.
  induction P as [|a P IH]; [congruence|]. intros _.
  destruct P as [|a' P]; [left; reflexivity|].
  right. apply IH. congruence.
Qed.

Lemma ordered_last_split P d :
  P <> [] -> ordered P ->
  exists P0, P = P0 ++ [last P d] /\ below (fst (last P d)) P0.
Proof.
  intros Hne Ho. exists (removelast P).
  assert (E : P = removelast P ++ [last P d]) by now apply app_removelast_last.
  split; auto. rewrite E in Ho. apply ordered_app in Ho.
  destruct Ho as (_ & _ & H). unfold below. apply Forall_forall.
  intros kv Hin. apply H; simpl; auto.
Qed.

Lemma find_last P S :
  P <> [] -> ordered P -> find (P ++ S) (last_key P) = Some (last_val P).
Proof.
  intros Hne Ho. unfold last_key, last_val.
  destruct (ordered_last_split P (0, 0) Hne Ho) as (P0 & E & Hb).
  rewrite E at 1. rewrite <- app_assoc. simpl.
  destruct (last P (0, 0)) as [k x]. simpl in *.
  apply find_pivot. now apply below_notin.
Qed.

Lemma prev_from_app p P S it :
  P <> [] -> (forall k, it = It k -> ~ In k (keys P)) ->
  prev_from p (P ++ S) it = prev_from (Some (It (last_key P))) S it.
Proof.
  revert p. induction P as [|[k' x'] P IH]; [congruence|].
  intros p _ Hit. simpl.
  assert (Hstep : prev_from (Some (It k')) (P ++ S) it =
                  prev_from (Some (It (last_key ((k', x') :: P)))) S it).
  { destruct P as [|a P]; [reflexivity|].
    rewrite IH; [|congruence|].
    - reflexivity.
    - intros k Hk. specialize (Hit k Hk). simpl in Hit. simpl. tauto. }
  destruct it as [k|]; auto.
  destruct (Z.eqb_spec k k'); auto.
  exfalso. apply (Hit k eq_refl). simpl. auto.
Qed.

Lemma prev_from_begin p S : prev_from p S (StdMap.begin S) = p.
Proof. destruct S as [|[k x] S]; simpl; auto. now rewrite Z.eqb_refl. Qed.

Lemma prev_begin P S :
  P <> [] -> (forall k, StdMap.begin S = It k -> below k P) ->
  prev (P ++ S) (StdMap.begin S) = Some (It (last_key P)).
Proof.
  intros Hne Hb. unfold prev. rewrite prev_from_app; auto.
  - apply prev_from_begin.
  - intros k Hk. apply below_notin; auto.
Qed.

Lemma first_pivot P S k x :
  ~ In k (keys P) -> first (P ++ (k, x) :: S) (It k) = Some k.
Proof. intros H. simpl. now rewrite find_pivot. Qed.

Lemma next_pivot P S k x :
  below k P -> above k S ->
  next (P ++ (k, x) :: S) (It k) = Some (StdMap.begin S).
Proof.
  intros HP HS. unfold next.
  rewrite first_pivot by now apply below_notin.
  now rewrite upper_bound_pivot.
Qed.

(** ** The two boundary steps of [assign], in closed form *)

(** [keyBegin] is the key of a node: lines 36-43. *)
Lemma assign_keyBegin_present L X b w v :
  below b L -> above b X ->
  assign_keyBegin (L ++ (b, w) :: X) b v =
  Some (Locals (L ++ (b, v) :: X) (It b) (StdMap.begin X) w
          (negb (is_end (StdMap.begin X)))).
Proof.
  intros HL HX. unfold assign_keyBegin.
  assert (Hn : ~ In b (keys L)) by now apply below_notin.
  rewrite lower_bound_app by assumption.
  cbn [lower_bound]. rewrite Z.ltb_irrefl. cbn [is_end negb].
  rewrite first_pivot by assumption. rewrite Z.eqb_refl.
  cbn [second]. rewrite find_pivot by assumption.
  rewrite set_second_pivot by assumption.
  rewrite next_pivot by assumption.
  destruct (StdMap.begin X); reflexivity.
Qed.

(** [keyBegin] is not the key of a node: lines 44-57. *)
Lemma assign_keyBegin_absent L X b v :
  L <> [] -> ordered L -> below b L -> above b X ->
  assign_keyBegin (L ++ X) b v =
  Some (if last_val L =? v
        then Locals (L ++ X) (StdMap.begin X) (StdMap.begin X)
               (last_val L) true
        else Locals (L ++ (b, v) :: X) (It b) (StdMap.begin X)
               (last_val L) true).
Proof.
  intros Hne Ho HL HX. unfold assign_keyBegin.
  rewrite lower_bound_app by assumption.
  rewrite lower_bound_begin by bnd.
  assert (E : (if negb (is_end (StdMap.begin X))
               then k <- first (L ++ X) (StdMap.begin X) ;; Some (k =? b)
               else Some false) = Some false).
  { destruct X as [|[k x] X]; [reflexivity|]. inv_bounds. cbn [StdMap.begin is_end negb].
    rewrite first_pivot by (apply below_notin; bnd). zb. }
  rewrite E. clear E.
  rewrite prev_begin; auto.
  2:{ intros k Hk. destruct X as [|[k' x'] X]; [discriminate|].
      injection Hk as ->. inv_bounds. bnd. }
  cbn [second]. rewrite find_last by assumption.
  destruct (last_val L =? v); cbn [negb]; [reflexivity|].
  rewrite insert_pivot by assumption.
  now rewrite next_pivot.
Qed.

(** [keyEnd] is the key of a node: the test of line 64 fails. *)
Lemma assign_keyEnd_present l Q R e u v :
  m_map l = Q ++ (e, u) :: R -> below e Q ->
  assign_keyEnd l e v = Some (m_map l, It e, flag l (It e)).
Proof.
  intros E HQ. unfold assign_keyEnd. rewrite E.
  rewrite lower_bound_app by assumption.
  cbn [lower_bound]. rewrite Z.ltb_irrefl. cbn [is_end].
  rewrite first_pivot by now apply below_notin.
  rewrite Z.eqb_refl. reflexivity.
Qed.

(** [keyEnd] is not the key of a node: lines 64-77. *)
Lemma assign_keyEnd_absent l Q R e v :
  m_map l = Q ++ R ->
  Q <> [] -> ordered Q -> below e Q -> above e R -> ordered R ->
  assign_keyEnd l e v =
  Some (let ev := if iterator_eqb (It (last_key Q)) (begin l)
                  then endValue l else last_val Q in
        if ev =? v
        then (Q ++ R, StdMap.begin R, flag l (StdMap.begin R))
        else (Q ++ (e, ev) :: drop_redundant ev R, It e,
              flag l (StdMap.begin R))).
Proof.
  intros E Hne Ho HQ HR HoR. unfold assign_keyEnd. rewrite E.
  rewrite lower_bound_app by assumption.
  rewrite lower_bound_begin by bnd.
  assert (E1 : (if is_end (StdMap.begin R) then Some true
                else k <- first (Q ++ R) (StdMap.begin R) ;;
                     Some (negb (k =? e))) = Some true).
  { destruct R as [|[k x] R]; [reflexivity|]. inv_bounds. cbn [StdMap.begin is_end].
    rewrite first_pivot by (apply below_notin; bnd). zb. }
  rewrite E1. clear E1.
  rewrite prev_begin; auto.
  2:{ intros k Hk. destruct R as [|[k' x'] R]; [discriminate|].
      injection Hk as ->. inv_bounds. bnd. }
  cbn [second]. rewrite find_last by assumption.
  fold (flag l (StdMap.begin R)).
  set (ev := if iterator_eqb (It (last_key Q)) (begin l)
             then endValue l else last_val Q).
  assert (E2 : (if negb (iterator_eqb (It (last_key Q)) (begin l))
                then Some (last_val Q) else Some (endValue l)) = Some ev).
  { unfold ev. destruct (iterator_eqb (It (last_key Q)) (begin l)); reflexivity. }
  rewrite E2. clear E2. cbn zeta.
  destruct (ev =? v); cbn [negb]; [reflexivity|].
  rewrite insert_pivot by assumption.
  rewrite next_pivot by assumption.
  destruct R as [|[k x] R]; [reflexivity|].
  inv_bounds. cbn [StdMap.begin is_end second drop_redundant].
  replace (Q ++ (e, ev) :: (k, x) :: R) with ((Q ++ [(e, ev)]) ++ (k, x) :: R)
    by now rewrite <- app_assoc.
  assert (Hk : ~ In k (keys (Q ++ [(e, ev)]))) by (apply below_notin; bnd).
  rewrite find_pivot by assumption.
  destruct (x =? ev); [|now rewrite <- app_assoc].
  unfold StdMap.erase. rewrite first_pivot by assumption.
  assert (E1 : remove_keys (fun k' => k' =? k) (Q ++ [(e, ev)]) = Q ++ [(e, ev)]).
  { apply remove_keys_none.
    assert (Hb : below k (Q ++ [(e, ev)])) by bnd.
    eapply Forall_impl; [|exact Hb]. simpl. intros. zb. }
  assert (E2 : remove_keys (fun k' => k' =? k) ((k, x) :: R) = R).
  { unfold remove_keys. simpl. rewrite Z.eqb_refl. simpl.
    apply (remove_keys_none (fun k' => k' =? k)).
    eapply Forall_impl; [|exact H1]. simpl. intros. zb. }
  rewrite remove_keys_app, E1, E2, <- app_assoc. reflexivity.
Qed.

Lemma assign_erase_end m er eb : assign_erase m er eb End = Some m.
Proof. unfold assign_erase. cbn [is_end negb]. now rewrite andb_false_r. Qed.

(** The removal takes out exactly the nodes from [eraseBegin] up to
    [eraseEnd]. *)
Lemma assign_erase_middle P k1 x1 M1 k2 x2 S2 :
  below k1 P -> above k1 M1 -> below k2 M1 -> k1 < k2 -> above k2 S2 ->
  assign_erase (P ++ (k1, x1) :: M1 ++ (k2, x2) :: S2) true (It k1) (It k2)
  = Some (P ++ (k2, x2) :: S2).
Proof.
  intros HP HM1 HM2 Hlt HS. unfold assign_erase, erase_range.
  cbn [is_end negb andb].
  assert (F1 : first (P ++ (k1, x1) :: M1 ++ (k2, x2) :: S2) (It k1) = Some k1)
    by (apply first_pivot, below_notin; assumption).
  assert (F2 : first (P ++ (k1, x1) :: M1 ++ (k2, x2) :: S2) (It k2) = Some k2).
  { replace (P ++ (k1, x1) :: M1 ++ (k2, x2) :: S2)
      with ((P ++ (k1, x1) :: M1) ++ (k2, x2) :: S2)
      by (rewrite <- app_assoc; reflexivity).
    apply first_pivot, below_notin. bnd. }
  rewrite F1, F2.
  destruct (Z.ltb_spec k1 k2); [|lia].
  destruct (Z.leb_spec k1 k2); [|lia].
  f_equal.
  set (p := fun k' => (k1 <=? k') && (k' <? k2)).
  assert (E1 : remove_keys p P = P).
  { apply remove_keys_none. eapply Forall_impl; [|exact HP].
    unfold p. simpl. intros. zb. }
  assert (E2 : remove_keys p ((k1, x1) :: M1) = []).
  { apply remove_keys_all. constructor.
    - unfold p. simpl. zb.
    - unfold above, below in *. rewrite Forall_forall in *.
      intros kv Hin. specialize (HM1 _ Hin). specialize (HM2 _ Hin).
      unfold p. simpl in *. zb. }
  assert (E3 : remove_keys p ((k2, x2) :: S2) = (k2, x2) :: S2).
  { apply remove_keys_none. constructor.
    - unfold p. simpl. zb.
    - eapply Forall_impl; [|exact HS]. unfold p. simpl. intros. zb. }
  change (P ++ (k1, x1) :: M1 ++ (k2, x2) :: S2)
    with (P ++ ((k1, x1) :: M1) ++ (k2, x2) :: S2).
  now rewrite !remove_keys_app, E1, E2, E3.
Qed.

Lemma above_drop_redundant k ev R : above k R -> above k (drop_redundant ev R).
Proof.
  destruct R as [|[k' x'] R]; simpl; auto.
  intros H. destruct (x' =? ev); auto. now inv_bounds.
Qed.

(** [assign] from the state its first part leaves: [P] ends with the left
    boundary, [M] holds the nodes strictly inside the range. *)
Lemma assign_after_keyBegin m l P M E R b e v :
  b < e ->
  assign_keyBegin m b v = Some l ->
  m_map l = P ++ M ++ entry e E ++ R ->
  eraseBegin l = StdMap.begin (M ++ entry e E ++ R) ->
  (M <> [] -> erase l = true) ->
  P <> [] -> ordered P -> atmost b P ->
  ordered M -> above b M -> below e M ->
  ordered R -> above e R ->
  assign m b e v =
  Some (P ++ tail_of (if iterator_eqb (It (last_key (P ++ M))) (begin l)
                      then endValue l else last_val (P ++ M)) M E R e v).
Proof.
  intros Hlt Hkb Hm Heb Her HPn HPo HPb HMo HMa HMb HRo HRa.
  unfold assign. destruct (Z.ltb_spec b e); [|lia]. cbn [negb]. rewrite Hkb.
  assert (HQo : ordered (P ++ M)).
  { apply ordered_app. repeat split; auto. intros kv kv' H1 H2.
    unfold atmost, above in *. rewrite Forall_forall in HPb, HMa.
    specialize (HPb _ H1). specialize (HMa _ H2). simpl in *. lia. }
  assert (HQb : below e (P ++ M)) by bnd.
  assert (HQn : P ++ M <> []).
  { intros E0. apply app_eq_nil in E0. tauto. }
  destruct E as [u|]; cbn [entry app] in *.
  - rewrite (assign_keyEnd_present l (P ++ M) R e u v);
      [| rewrite Hm, <- app_assoc; reflexivity | assumption].
    rewrite Hm. unfold flag. rewrite Heb. cbn [tail_of].
    destruct M as [|[k1 x1] M1].
    + cbn [StdMap.begin app iterator_eqb]. rewrite Z.eqb_refl. reflexivity.
    + inv_bounds. cbn [StdMap.begin app iterator_eqb].
      destruct (Z.eqb_spec e k1); [lia|].
      rewrite Her by congruence.
      apply assign_erase_middle; bnd.
  - rewrite (assign_keyEnd_absent l (P ++ M) R e v); auto;
      [| rewrite Hm, <- app_assoc; reflexivity].
    cbv zeta.
    set (ev := if iterator_eqb (It (last_key (P ++ M))) (begin l)
               then endValue l else last_val (P ++ M)).
    unfold flag. rewrite Heb. cbn [tail_of].
    destruct (ev =? v).
    + destruct M as [|[k1 x1] M1].
      * cbn [app]. rewrite iterator_eqb_refl, app_nil_r.
        destruct R; [now rewrite app_nil_r | reflexivity].
      * cbn [StdMap.begin app].
        destruct R as [|[kr xr] R].
        { rewrite assign_erase_end. now rewrite !app_nil_r. }
        inv_bounds. cbn [StdMap.begin iterator_eqb].
        destruct (Z.eqb_spec kr k1); [lia|].
        rewrite Her by congruence. rewrite <- app_assoc.
        apply assign_erase_middle; bnd.
    + destruct M as [|[k1 x1] M1].
      * cbn [app]. rewrite iterator_eqb_refl, app_nil_r. reflexivity.
      * cbn [StdMap.begin app].
        assert (Hf : (if iterator_eqb (StdMap.begin R) (It k1)
                      then false else erase l) = true).
        { rewrite Her by congruence.
          destruct R as [|[kr xr] R]; [reflexivity|].
          inv_bounds. cbn [StdMap.begin iterator_eqb].
          destruct (Z.eqb_spec kr k1); [lia|reflexivity]. }
        rewrite Hf. rewrite <- app_assoc. inv_bounds.
        apply assign_erase_middle; try bnd.
        apply above_drop_redundant. assumption.
Qed.

(** ** [assign] on a split map *)

Lemma last_key_app P M : M <> [] -> last_key (P ++ M) = last_key M.
Proof. intros H. unfold last_key. now rewrite last_app_nonempty. Qed.

Lemma last_val_app P M : M <> [] -> last_val (P ++ M) = last_val M.
Proof. intros H. unfold last_val. now rewrite last_app_nonempty. Qed.

Lemma last_key_above k M : M <> [] -> above k M -> k < last_key M.
Proof.
  intros Hne Ha. unfold above in Ha. rewrite Forall_forall in Ha.
  apply (Ha (last M (0, 0))). now apply last_in.
Qed.

Lemma ordered_snoc L b v : ordered L -> below b L -> ordered (L ++ [(b, v)]).
Proof.
  intros Ho Hb. apply ordered_app. repeat split; simpl; auto.
  - constructor.
  - intros kv kv' Hin [<-|[]]. unfold below in Hb.
    rewrite Forall_forall in Hb. now apply Hb.
Qed.

Lemma tail_of_ext ev ev' M E R e v :
  ev = ev' -> tail_of ev M E R e v = tail_of ev' M E R e v.
Proof. now intros ->. Qed.

Theorem assign_closed_form L B M E R b e v :
  segments L B M R b e ->
  assign (L ++ entry b B ++ M ++ entry e E ++ R) b e v =
  Some (assign_result L B M E R b e v).
Proof.
  intros [Hlt Hfirst HLo HLb HMo HMa HMb HRo HRa].
  set (X := M ++ entry e E ++ R).
  assert (HX : above b X) by (unfold X; destruct E; bnd).
  assert (Hsnoc : forall P, M <> [] ->
            iterator_eqb (It (last_key (P ++ M))) (It b) = false).
  { intros P Hne. rewrite last_key_app by assumption.
    pose proof (last_key_above b M Hne HMa). simpl. zb. }
  unfold assign_result.
  destruct B as [w|]; cbn [entry app B_after].
  - etransitivity.
    + eapply (assign_after_keyBegin _ _ (L ++ [(b, v)]) M E R b e v); auto.
      * apply assign_keyBegin_present; assumption.
      * cbn [m_map]. rewrite <- app_assoc. reflexivity.
      * reflexivity.
      * intros Hne. cbn [erase]. unfold X.
        destruct M as [|[k x] M]; [congruence|reflexivity].
      * intros E0. apply app_eq_nil in E0. destruct E0. discriminate.
      * now apply ordered_snoc.
      * bnd.
    + cbn [begin endValue]. rewrite <- app_assoc. cbn [app]. do 3 f_equal.
        apply tail_of_ext.
      unfold tail_value. cbn [B_after].
      destruct M as [|kv M].
      * rewrite app_nil_r. unfold last_key. rewrite last_last.
        simpl. now rewrite Z.eqb_refl.
      * rewrite Hsnoc by congruence. now rewrite last_val_app by congruence.
  - specialize (Hfirst eq_refl).
    pose proof (assign_keyBegin_absent L X b v Hfirst HLo HLb HX) as Hkb.
    destruct (Z.eqb_spec (last_val L) v) as [Hv|Hv].
    + cbn [entry app].
      etransitivity.
      * eapply (assign_after_keyBegin _ _ L M E R b e v); eauto; try reflexivity.
        bnd.
      * cbn [begin endValue]. do 2 f_equal. apply tail_of_ext.
        unfold tail_value, B_after.
        destruct (Z.eqb_spec (last_val L) v); [|contradiction].
        destruct M as [|[k1 x1] [|[k2 x2] M]].
        -- rewrite app_nil_r. now destruct (iterator_eqb _ _).
        -- unfold X, last_key. rewrite last_last. simpl.
           now rewrite Z.eqb_refl.
        -- rewrite last_key_app, last_val_app by congruence.
           unfold X. cbn [app StdMap.begin iterator_eqb].
           inv_bounds.
           assert (k1 < last_key ((k2, x2) :: M)).
           { apply last_key_above; [congruence|]. bnd. }
           change (last_key ((k1, x1) :: (k2, x2) :: M))
             with (last_key ((k2, x2) :: M)).
           destruct (Z.eqb_spec (last_key ((k2, x2) :: M)) k1); [lia|].
           reflexivity.
    + cbn [entry app].
      etransitivity.
      * eapply (assign_after_keyBegin _ _ (L ++ [(b, v)]) M E R b e v); eauto.
        -- cbn [m_map]. rewrite <- app_assoc. reflexivity.
        -- intros E0. apply app_eq_nil in E0. destruct E0. discriminate.
        -- now apply ordered_snoc.
        -- bnd.
      * cbn [begin endValue]. rewrite <- app_assoc. cbn [app]. do 3 f_equal.
        apply tail_of_ext.
        unfold tail_value, B_after.
        destruct (Z.eqb_spec (last_val L) v); [contradiction|].
        destruct M as [|kv M].
        -- rewrite app_nil_r. unfold last_key. rewrite last_last.
           simpl. now rewrite Z.eqb_refl.
        -- rewrite Hsnoc by congruence. now rewrite last_val_app by congruence.
Qed.

(** ** Splitting an ordered map around a range *)

Lemma split_key m k :
  ordered m ->
  exists L B R,
    m = L ++ entry k B ++ R /\
    ordered L /\ below k L /\ ordered R /\ above k R.
Proof.
  induction m as [|[k0 v0] m IH]; intros Ho.
  - exists [], None, []. repeat split; constructor.
  - destruct Ho as [Ha Ho]. simpl in Ha.
    destruct (Z.lt_trichotomy k0 k) as [Hlt|[Heq|Hgt]].
    + destruct (IH Ho) as (L & B & R & E & HL & HLb & HR & HRa).
      exists ((k0, v0) :: L), B, R. subst m. repeat split; auto.
      * unfold above in *. apply Forall_app in Ha. tauto.
      * constructor; auto.
    + subst k0. exists [], (Some v0), m. repeat split; auto. constructor.
    + exists [], None, ((k0, v0) :: m). repeat split; auto; try constructor; auto.
      eapply Forall_impl; [|exact Ha]. simpl. intros. lia.
Qed.

Lemma wf_inv lowest m :
  wf lowest m = true <->
  (exists v rest, m = (lowest, v) :: rest) /\ ordered m.
Proof.
  unfold wf. rewrite andb_true_iff, iterator_eqb_eq, orderedb_spec.
  split; intros [H1 H2]; split; auto.
  - destruct m as [|[k v] m]; [discriminate|]. injection H1 as ->. eauto.
  - destruct H1 as (v & rest & ->). reflexivity.
Qed.

Lemma wf_segments lowest m b e :
  wf lowest m = true -> lowest <= b -> b < e ->
  exists L B M E R,
    m = L ++ entry b B ++ M ++ entry e E ++ R /\
    segments L B M R b e /\
    StdMap.begin (L ++ entry b B) = It lowest.
Proof.
  intros Hwf Hb Hlt. apply wf_inv in Hwf. destruct Hwf as [(v0 & rest & Em) Ho].
  destruct (split_key m b Ho) as (L & B & R0 & E0 & HL & HLb & HR0 & HR0a).
  destruct (split_key R0 e HR0) as (M & E & R & E1 & HM & HMb & HR & HRa).
  exists L, B, M, E, R. subst R0.
  assert (HMa : above b M) by (inv_bounds; assumption).
  assert (Hbeg : StdMap.begin (L ++ entry b B) = It lowest).
  { rewrite Em in E0. destruct L as [|[k x] L].
    - destruct B as [w|]; simpl in *.
      + now injection E0 as -> _.
      + exfalso. rewrite <- E0 in HR0a. inv_bounds. lia.
    - simpl in *. now injection E0 as -> _. }
  repeat split; auto.
  intros -> ->. simpl in Hbeg. discriminate.
Qed.

(** ** Consequences of the closed form *)

Lemma B_after_idem L B v : B_after L (B_after L B v) v = B_after L B v.
Proof.
  unfold B_after. destruct B; auto.
  destruct (last_val L =? v) eqn:E; auto.
Qed.

Lemma ordered_drop_redundant ev R : ordered R -> ordered (drop_redundant ev R).
Proof.
  destruct R as [|[k x] R]; simpl; auto.
  intros [H1 H2]. destruct (x =? ev); simpl; auto.
Qed.

Lemma ordered_join L b o T :
  ordered L -> below b L -> ordered T -> above b T ->
  ordered (L ++ entry b o ++ T).
Proof.
  intros HL HLb HT HTa. apply ordered_app. repeat split; auto.
  - destruct o; simpl; auto.
  - intros kv kv' H1 H2.
    assert (fst kv < b).
    { unfold below in HLb. rewrite Forall_forall in HLb. auto. }
    assert (b <= fst kv').
    { apply in_app_or in H2. destruct H2 as [H2|H2].
      - destruct o; simpl in H2; [|tauto]. destruct H2 as [<-|[]]. simpl. lia.
      - unfold above in HTa. rewrite Forall_forall in HTa.
        specialize (HTa _ H2). simpl in HTa. lia. }
    lia.
Qed.

Lemma tail_of_ordered ev L B M R b e E v :
  segments L B M R b e ->
  ordered (tail_of ev M E R e v) /\ above b (tail_of ev M E R e v).
Proof.
  intros [Hlt Hfirst HLo HLb HMo HMa HMb HRo HRa].
  pose proof (above_drop_redundant e ev R HRa).
  pose proof (ordered_drop_redundant ev R HRo).
  unfold tail_of. destruct E as [u|].
  - split; [split; auto | bnd].
  - destruct (ev =? v).
    + destruct R; split; auto; bnd.
    + split; [split; auto | bnd].
Qed.

Lemma assign_result_ordered L B M E R b e v :
  segments L B M R b e -> ordered (assign_result L B M E R b e v).
Proof.
  intros Hs. destruct (tail_of_ordered (tail_value L B M v) L B M R b e E v Hs).
  destruct Hs. now apply ordered_join.
Qed.

Lemma assign_result_begin L B M E R b e v :
  L ++ entry b B <> [] ->
  StdMap.begin (assign_result L B M E R b e v) = StdMap.begin (L ++ entry b B).
Proof.
  unfold assign_result. destruct L as [|[k x] L]; [|reflexivity].
  destruct B; [reflexivity|]. simpl. congruence.
Qed.

Lemma keys_app (P S : StdMap.t) : keys (P ++ S) = keys P ++ keys S.
Proof. apply map_app. Qed.

Lemma tail_of_keys ev M E R e v k :
  In k (keys (tail_of ev M E R e v)) ->
  k = e \/ In k (keys M) \/ In k (keys R).
Proof.
  unfold tail_of. destruct E as [u|].
  - simpl. intuition.
  - destruct (ev =? v).
    + destruct R; auto.
    + simpl. intros [H|H]; auto. right. right.
      destruct R as [|[k' x'] R]; simpl in *; auto.
      destruct (x' =? ev); simpl; auto.
Qed.

Lemma assign_result_keys L B M E R b e v k :
  In k (keys (assign_result L B M E R b e v)) ->
  k = b \/ k = e \/ In k (keys (L ++ entry b B ++ M ++ entry e E ++ R)).
Proof.
  unfold assign_result. rewrite !keys_app, !in_app_iff.
  intros [H|[H|H]]; auto.
  - destruct (B_after L B v); simpl in H; intuition.
  - apply tail_of_keys in H. intuition.
Qed.

(** A second identical call finds the map as the first call left it. *)
Lemma assign_result_fixed L B M E R b e v :
  segments L B M R b e ->
  assign (assign_result L B M E R b e v) b e v =
  Some (assign_result L B M E R b e v).
Proof.
  intros Hs. pose proof Hs as [Hlt Hfirst HLo HLb HMo HMa HMb HRo HRa].
  assert (Hfirst' : B_after L B v = None -> L <> []).
  { unfold B_after. destruct B; [discriminate|]. auto. }
  assert (Hnil : forall R', ordered R' -> above e R' ->
            segments L (B_after L B v) [] R' b e).
  { intros R' H1 H2. constructor; auto; constructor. }
  assert (Hpoint : forall u R', ordered R' -> above e R' ->
            assign (L ++ entry b (B_after L B v) ++ (e, u) :: R') b e v =
            Some (L ++ entry b (B_after L B v) ++ (e, u) :: R')).
  { intros u R' H1 H2.
    pose proof (assign_closed_form L (B_after L B v) [] (Some u) R' b e v
                  (Hnil R' H1 H2)) as Hc.
    unfold assign_result in Hc. rewrite B_after_idem in Hc. exact Hc. }
  unfold assign_result at 1 2. unfold tail_of.
  destruct E as [u|]; [now apply Hpoint|].
  destruct (Z.eqb_spec (tail_value L B M v) v) as [Hev|Hev].
  2:{ apply Hpoint.
      - now apply ordered_drop_redundant.
      - now apply above_drop_redundant. }
  destruct R as [|kr R].
  - assert (Hs' : segments L (B_after L B v) M [] b e) by (constructor; auto).
    pose proof (assign_closed_form L (B_after L B v) M None [] b e v Hs') as Hc.
    cbn [entry app] in Hc. rewrite app_nil_r in Hc.
    rewrite Hc. unfold assign_result. rewrite B_after_idem.
    do 3 f_equal.
    assert (Hev' : tail_value L (B_after L B v) M v = v).
    { revert Hev. unfold tail_value. rewrite B_after_idem.
      destruct (B_after L B v) eqn:EB; auto.
      destruct M; auto. intros _.
      unfold B_after in EB. destruct B; [congruence|].
      destruct (last_val L =? v); congruence. }
    unfold tail_of. rewrite Hev', Z.eqb_refl. reflexivity.
  - pose proof (assign_closed_form L (B_after L B v) [] None (kr :: R) b e v
                  (Hnil _ HRo HRa)) as Hc.
    cbn [entry app] in Hc. rewrite Hc.
    unfold assign_result. rewrite B_after_idem. do 3 f_equal.
    assert (Hev' : tail_value L (B_after L B v) [] v = v).
    { unfold tail_value. rewrite B_after_idem.
      destruct (B_after L B v) eqn:EB; auto.
      unfold B_after in EB. destruct B; [congruence|].
      destruct (last_val L =? v); congruence. }
    unfold tail_of. rewrite Hev', Z.eqb_refl. reflexivity.
Qed.

Lemma assign_empty m b e v : ~ b < e -> assign m b e v = Some m.
Proof. intros H. unfold assign. destruct (Z.ltb_spec b e); [lia|reflexivity]. Qed.

(** On a well-formed map and a representable [keyBegin], [assign] runs to
    completion, keeps the map well formed, adds no key other than its two
    arguments and leaves a map on which the same call changes nothing. *)
Lemma assign_wf lowest m b e v :
  wf lowest m = true -> lowest <= b ->
  exists m',
    assign m b e v = Some m' /\
    wf lowest m' = true /\
    (forall k, In k (keys m') -> k = b \/ k = e \/ In k (keys m)) /\
    assign m' b e v = Some m'.
Proof.
  intros Hwf Hb. destruct (Z.lt_ge_cases b e) as [Hlt|Hge].
  - destruct (wf_segments lowest m b e Hwf Hb Hlt)
      as (L & B & M & E & R & Em & Hs & Hbeg).
    exists (assign_result L B M E R b e v). subst m. repeat split.
    + now apply assign_closed_form.
    + unfold wf. apply andb_true_iff. split.
      * rewrite assign_result_begin, Hbeg; [apply iterator_eqb_refl|].
        intros E0. rewrite E0 in Hbeg. discriminate.
      * apply orderedb_spec. now apply assign_result_ordered.
    + apply assign_result_keys.
    + now apply assign_result_fixed.
  - exists m. rewrite assign_empty by lia. repeat split; auto.
Qed.

Lemma interval_map_wf lowest v : wf lowest (interval_map lowest v) = true.
Proof. unfold wf. simpl. now rewrite Z.eqb_refl. Qed.

Lemma reachable_wf lowest hist m :
  reachable lowest hist m -> wf lowest m = true.
Proof.
  induction 1 as [v | hist m b e v m' _ IH Hb He Ha].
  - apply interval_map_wf.
  - destruct (assign_wf lowest m b e v IH Hb) as (m'' & E & Hwf & _).
    congruence.
Qed.

Lemma ordered_le_last P kv : ordered P -> In kv P -> fst kv <= last_key P.
Proof.
  intros Ho Hin.
  assert (Hne : P <> []) by (intros ->; contradiction).
  destruct (ordered_last_split P (0, 0) Hne Ho) as (P0 & E & Hb).
  rewrite E in Hin. apply in_app_or in Hin. destruct Hin as [Hin|[<-|[]]].
  - unfold below in Hb. rewrite Forall_forall in Hb.
    specialize (Hb _ Hin). unfold last_key. simpl in Hb. lia.
  - unfold last_key. lia.
Qed.

(** [operator[]] on a well-formed map, step by step. *)
Lemma lookup_wf lowest m k :
  wf lowest m = true -> lowest <= k ->
  exists k0 v0,
    upper_bound m k <> StdMap.begin m /\
    prev m (upper_bound m k) = Some (It k0) /\
    second m (It k0) = Some v0 /\
    lookup m k = Some v0 /\
    In (k0, v0) m /\ k0 <= k /\
    (forall k1 v1, In (k1, v1) m -> k1 <= k -> k1 <= k0).
Proof.
  intros Hwf Hk. apply wf_inv in Hwf. destruct Hwf as [(v & rest & Em) Ho].
  destruct (split_key m k Ho) as (L & B & R & E & HL & HLb & HR & HRa).
  set (P := L ++ entry k B).
  assert (EP : m = P ++ R) by (unfold P; now rewrite <- app_assoc).
  assert (HPm : atmost k P) by (unfold P; bnd).
  assert (HPo : ordered P).
  { rewrite EP in Ho. apply ordered_app in Ho. tauto. }
  assert (HPn : P <> []).
  { intros E0. rewrite E0 in EP. simpl in EP. subst R.
    rewrite Em in HRa. inv_bounds. lia. }
  assert (Hub : upper_bound m k = StdMap.begin R).
  { rewrite EP, upper_bound_app by assumption. now apply upper_bound_begin. }
  assert (Hprev : prev m (upper_bound m k) = Some (It (last_key P))).
  { rewrite Hub, EP. apply prev_begin; auto.
    intros k' Hk'. destruct R as [|[k'' x''] R]; [discriminate|].
    injection Hk' as ->. inv_bounds. bnd. }
  assert (Hsnd : second m (It (last_key P)) = Some (last_val P)).
  { rewrite EP. simpl. now apply find_last. }
  assert (Hin : In (last_key P, last_val P) P).
  { unfold last_key, last_val. rewrite <- surjective_pairing.
    now apply last_in. }
  exists (last_key P), (last_val P). repeat split; auto.
  - rewrite Hub, Em. destruct R as [|[k' x'] R]; [discriminate|].
    simpl. inv_bounds. intros [= ->]. lia.
  - unfold lookup. now rewrite Hprev.
  - rewrite EP. apply in_or_app. auto.
  - unfold atmost in HPm. rewrite Forall_forall in HPm.
    apply (HPm _ Hin).
  - intros k1 v1 H1 Hle. rewrite EP in H1. apply in_app_or in H1.
    destruct H1 as [H1|H1].
    + apply (ordered_le_last P (k1, v1)); assumption.
    + unfold above in HRa. rewrite Forall_forall in HRa.
      specialize (HRa _ H1). simpl in HRa. lia.
Qed.

(** ** The claims *)

(** C1 (functional equivalence with the reference array) on the calls
    [assign(3,9,5); assign(1,6,0)] from the map constructed with default 0:
    the second call removes the node of key 3 without restoring its value at
    key 6, so the map answers 0 at key 7 where the reference array holds
    5. *)
Theorem assign_diverges_from_reference_array :
  run (interval_map 0 0) [(3, 9, 5); (1, 6, 0)] = Some [(0, 0); (9, 0)] /\
  lookup [(0, 0); (9, 0)] 7 = Some 0 /\
  array_run (fun _ => 0) [(3, 9, 5); (1, 6, 0)] 7 = 5.
Proof. repeat split. Qed.

(** C2 (values outside the assigned range are unchanged) on the reachable
    map [(0,0); (3,5); (9,0)]: [assign(1,6,0)] changes the value looked up at
    key 7, which lies outside [1,6), from 5 to 0. *)
Theorem assign_changes_value_outside_range :
  reachable 0 [(3, 9, 5)] [(0, 0); (3, 5); (9, 0)] /\
  assign [(0, 0); (3, 5); (9, 0)] 1 6 0 = Some [(0, 0); (9, 0)] /\
  6 <= 7 /\
  lookup [(0, 0); (3, 5); (9, 0)] 7 = Some 5 /\
  lookup [(0, 0); (9, 0)] 7 = Some 0.
Proof.
  repeat split; try lia.
  apply (reach_assign 0 [] (interval_map 0 0) 3 9 5); try lia.
  - apply reach_init.
  - reflexivity.
Qed.

(** C3 (invariant I2, canonical form) on the calls
    [assign(2,5,7); assign(2,5,0)] from the map constructed with default 0:
    the second call overwrites the node of key 2 in place and leaves three
    consecutive nodes of value 0. *)
Theorem assign_leaves_equal_neighbours :
  run (interval_map 0 0) [(2, 5, 7); (2, 5, 0)]
  = Some [(0, 0); (2, 0); (5, 0)] /\
  canonical [(0, 0); (2, 0); (5, 0)] = false.
Proof. repeat split. Qed.

(** C4 (the concrete scenario) evaluated: [assign(2,5,7)] behaves as the
    scenario says; the further [assign(4,8,7)] leaves the map unchanged, so
    key 5 still maps to 0 and its node is still there; the further
    [assign(0,10,0)] leaves the map unchanged again, with three nodes. *)
Theorem scenario_evaluated :
  let m1 := [(0, 0); (2, 7); (5, 0)] in
  assign (interval_map 0 0) 2 5 7 = Some m1 /\
  (lookup m1 1 = Some 0 /\ lookup m1 2 = Some 7 /\
   lookup m1 4 = Some 7 /\ lookup m1 5 = Some 0) /\
  assign m1 4 8 7 = Some m1 /\
  (lookup m1 4 = Some 7 /\ lookup m1 5 = Some 0 /\
   lookup m1 7 = Some 0 /\ lookup m1 8 = Some 0) /\
  assign m1 0 10 0 = Some m1 /\
  length m1 = 3%nat.
Proof. repeat split. Qed.

(** C5 (invariant I1): after the constructor and after every [assign], the
    map is non-empty and its first node has the minimum key; every further
    [assign] with representable arguments runs to completion and leaves such
    a node in place. *)
Theorem minimum_key_always_present lowest hist m :
  reachable lowest hist m ->
  (exists v rest, m = (lowest, v) :: rest) /\
  (forall b e val, lowest <= b -> lowest <= e ->
     exists v' rest', assign m b e val = Some ((lowest, v') :: rest')).
Proof.
  intros Hr. pose proof (reachable_wf _ _ _ Hr) as Hwf. split.
  - apply wf_inv in Hwf. tauto.
  - intros b e val Hb He.
    destruct (assign_wf lowest m b e val Hwf Hb) as (m' & Ea & Hwf' & _).
    apply wf_inv in Hwf'. destruct Hwf' as [(v' & rest' & ->) _]. eauto.
Qed.

Lemma minimum_key_always_present_witness :
  reachable 0 [(2, 5, 7)] [(0, 0); (2, 7); (5, 0)] /\
  ((exists v rest, [(0, 0); (2, 7); (5, 0)] = (0, v) :: rest) /\
   (forall b e val, 0 <= b -> 0 <= e ->
      exists v' rest',
        assign [(0, 0); (2, 7); (5, 0)] b e val = Some ((0, v') :: rest'))).
Proof.
  assert (H : reachable 0 [(2, 5, 7)] [(0, 0); (2, 7); (5, 0)]).
  { apply (reach_assign 0 [] (interval_map 0 0) 2 5 7);
      [apply reach_init | lia | lia | reflexivity]. }
  split; [exact H | exact (minimum_key_always_present 0 _ _ H)].
Defined.

(** C6 (no-op on an empty range): when [keyBegin < keyEnd] does not hold,
    [assign] returns the map it was given, so every lookup answers as
    before. *)
Theorem assign_empty_range_is_noop m b e v :
  ~ b < e ->
  assign m b e v = Some m /\
  (forall m', assign m b e v = Some m' ->
     m' = m /\ forall k, lookup m' k = lookup m k).
Proof.
  intros H. rewrite assign_empty by assumption. split; [reflexivity|].
  intros m' [= <-]. auto.
Qed.

Lemma assign_empty_range_is_noop_witness :
  ~ 5 < 2 /\
  (assign [(0, 0); (3, 4)] 5 2 9 = Some [(0, 0); (3, 4)] /\
   (forall m', assign [(0, 0); (3, 4)] 5 2 9 = Some m' ->
      m' = [(0, 0); (3, 4)] /\
      forall k, lookup m' k = lookup [(0, 0); (3, 4)] k)).
Proof.
  assert (H : ~ 5 < 2) by lia.
  split; [exact H | exact (assign_empty_range_is_noop _ 5 2 9 H)].
Defined.

(** C7 (idempotence): on every well-formed map (ordered, first key the
    minimum key; every reachable map is one) and every representable
    [keyBegin], [assign(b,e,v)] runs to completion and a second
    [assign(b,e,v)] returns the very map the first one produced. *)
Theorem assign_twice_is_assign_once lowest m b e v :
  wf lowest m = true -> lowest <= b ->
  exists m1,
    assign m b e v = Some m1 /\
    (m2 <- assign m b e v ;; assign m2 b e v) = Some m1.
Proof.
  intros Hwf Hb.
  destruct (assign_wf lowest m b e v Hwf Hb) as (m1 & E1 & _ & _ & E2).
  exists m1. now rewrite E1.
Qed.

Lemma assign_twice_is_assign_once_witness :
  wf 0 [(0, 0); (3, 5); (9, 0)] = true /\ 0 <= 1 /\
  exists m1,
    assign [(0, 0); (3, 5); (9, 0)] 1 6 0 = Some m1 /\
    (m2 <- assign [(0, 0); (3, 5); (9, 0)] 1 6 0 ;; assign m2 1 6 0) = Some m1.
Proof.
  assert (H1 : wf 0 [(0, 0); (3, 5); (9, 0)] = true) by reflexivity.
  assert (H2 : 0 <= 1) by lia.
  split; [exact H1 | split; [exact H2 |]].
  exact (assign_twice_is_assign_once 0 _ 1 6 0 H1 H2).
Defined.

(** C8 (lookup): in every reachable state and for every representable key
    [k], [lookup k] returns the value of the node with the greatest key that
    is less than or equal to [k]. *)
Theorem lookup_returns_greatest_key_below lowest hist m k :
  reachable lowest hist m -> lowest <= k ->
  exists k0 v0,
    In (k0, v0) m /\ k0 <= k /\
    (forall k1 v1, In (k1, v1) m -> k1 <= k -> k1 <= k0) /\
    lookup m k = Some v0.
Proof.
  intros Hr Hk. pose proof (reachable_wf _ _ _ Hr) as Hwf.
  destruct (lookup_wf lowest m k Hwf Hk)
    as (k0 & v0 & _ & _ & _ & Hl & Hin & Hle & Hmax).
  exists k0, v0. auto.
Qed.

Lemma lookup_returns_greatest_key_below_witness :
  reachable 0 [(2, 5, 7)] [(0, 0); (2, 7); (5, 0)] /\ 0 <= 4 /\
  exists k0 v0,
    In (k0, v0) [(0, 0); (2, 7); (5, 0)] /\ k0 <= 4 /\
    (forall k1 v1, In (k1, v1) [(0, 0); (2, 7); (5, 0)] -> k1 <= 4 -> k1 <= k0) /\
    lookup [(0, 0); (2, 7); (5, 0)] 4 = Some v0.
Proof.
  assert (H : reachable 0 [(2, 5, 7)] [(0, 0); (2, 7); (5, 0)]).
  { apply (reach_assign 0 [] (interval_map 0 0) 2 5 7);
      [apply reach_init | lia | lia | reflexivity]. }
  assert (H4 : 0 <= 4) by lia.
  split; [exact H | split; [exact H4 |]].
  exact (lookup_returns_greatest_key_below 0 _ _ 4 H H4).
Defined.

(** C9 (lookup never fails): in every reachable state and for every
    representable key [k], the search [upper_bound k] does not return
    [begin()], so the decrement is defined, the node it reaches is live and
    [lookup k] returns a value. *)
Theorem lookup_always_succeeds lowest hist m k :
  reachable lowest hist m -> lowest <= k ->
  upper_bound m k <> StdMap.begin m /\
  exists it v,
    prev m (upper_bound m k) = Some it /\
    second m it = Some v /\
    lookup m k = Some v.
Proof.
  intros Hr Hk. pose proof (reachable_wf _ _ _ Hr) as Hwf.
  destruct (lookup_wf lowest m k Hwf Hk)
    as (k0 & v0 & Hub & Hp & Hs & Hl & _).
  split; [assumption|]. exists (It k0), v0. auto.
Qed.

Lemma lookup_always_succeeds_witness :
  reachable 0 [(2, 5, 7)] [(0, 0); (2, 7); (5, 0)] /\ 0 <= 0 /\
  (upper_bound [(0, 0); (2, 7); (5, 0)] 0
     <> StdMap.begin [(0, 0); (2, 7); (5, 0)] /\
   exists it v,
     prev [(0, 0); (2, 7); (5, 0)] (upper_bound [(0, 0); (2, 7); (5, 0)] 0)
       = Some it /\
     second [(0, 0); (2, 7); (5, 0)] it = Some v /\
     lookup [(0, 0); (2, 7); (5, 0)] 0 = Some v).
Proof.
  assert (H : reachable 0 [(2, 5, 7)] [(0, 0); (2, 7); (5, 0)]).
  { apply (reach_assign 0 [] (interval_map 0 0) 2 5 7);
      [apply reach_init | lia | lia | reflexivity]. }
  assert (H0 : 0 <= 0) by lia.
  split; [exact H | split; [exact H0 |]].
  exact (lookup_always_succeeds 0 _ _ 0 H H0).
Defined.

(** C10 (provenance of keys): in every reachable state each stored key is
    the minimum key or the [keyBegin] or [keyEnd] of an earlier call, and a
    further [assign] yields only keys that were stored before or are one of
    its two key arguments. *)
Theorem stored_keys_come_from_calls lowest hist m :
  reachable lowest hist m ->
  (forall k, In k (keys m) ->
     k = lowest \/ exists b e v, In (b, e, v) hist /\ (k = b \/ k = e)) /\
  (forall b e v m', lowest <= b -> assign m b e v = Some m' ->
     forall k, In k (keys m') -> In k (keys m) \/ k = b \/ k = e).
Proof.
  intros Hr. split.
  - induction Hr as [v | hist m b e v m' Hr IH Hb He Ha].
    + simpl. intros k [<-|[]]. auto.
    + intros k Hin.
      destruct (assign_wf lowest m b e v (reachable_wf _ _ _ Hr) Hb)
        as (m'' & E & _ & Hk & _).
      assert (m'' = m') by congruence. subst m''.
      destruct (Hk k Hin) as [->|[->|Hold]].
      * right. exists b, e, v. simpl. auto.
      * right. exists b, e, v. simpl. auto.
      * destruct (IH k Hold) as [->|(b' & e' & v' & Hh & Hor)]; auto.
        right. exists b', e', v'. simpl. auto.
  - intros b e v m' Hb Ha k Hin.
    destruct (assign_wf lowest m b e v (reachable_wf _ _ _ Hr) Hb)
      as (m'' & E & _ & Hk & _).
    assert (m'' = m') by congruence. subst m''.
    destruct (Hk k Hin) as [->|[->|Hold]]; auto.
Qed.

Lemma stored_keys_come_from_calls_witness :
  reachable 0 [(2, 5, 7)] [(0, 0); (2, 7); (5, 0)] /\
  ((forall k, In k (keys [(0, 0); (2, 7); (5, 0)]) ->
      k = 0 \/ exists b e v, In (b, e, v) [(2, 5, 7)] /\ (k = b \/ k = e)) /\
   (forall b e v m', 0 <= b ->
      assign [(0, 0); (2, 7); (5, 0)] b e v = Some m' ->
      forall k, In k (keys m') ->
        In k (keys [(0, 0); (2, 7); (5, 0)]) \/ k = b \/ k = e)).
Proof.
  assert (H : reachable 0 [(2, 5, 7)] [(0, 0); (2, 7); (5, 0)]).
  { apply (reach_assign 0 [] (interval_map 0 0) 2 5 7);
      [apply reach_init | lia | lia | reflexivity]. }
  split; [exact H | exact (stored_keys_come_from_calls 0 _ _ H)].
Defined.

(** ** The function a map stands for *)

Lemma value_at_above d R k : above k R -> value_at d R k = d.
Proof. destruct R as [|[k' x'] R]; simpl; auto. intros H. inv_bounds. zb. Qed.

Lemma value_at_app_atmost d P S k :
  atmost k P -> value_at d (P ++ S) k = value_at (value_at d P k) S k.
Proof.
  revert d. induction P as [|[k' x'] P IH]; intros d H; simpl; auto.
  inv_bounds. zb. apply IH. assumption.
Qed.

Lemma value_at_app_above d P S k :
  above k S -> value_at d (P ++ S) k = value_at d P k.
Proof.
  intros HS. revert d. induction P as [|[k' x'] P IH]; intros d; simpl.
  - now apply value_at_above.
  - zb. apply IH.
Qed.

Lemma value_at_atmost d P k :
  P <> [] -> atmost k P -> value_at d P k = last_val P.
Proof.
  revert d. induction P as [|[k' x'] P IH]; intros d Hne H; [congruence|].
  inv_bounds. simpl value_at. zb.
  destruct P as [|a P]; [reflexivity|].
  rewrite IH by (auto; congruence). reflexivity.
Qed.

Lemma value_at_drop_redundant ev R k :
  ordered R -> value_at ev (drop_redundant ev R) k = value_at ev R k.
Proof.
  destruct R as [|[kr xr] R]; simpl; auto.
  intros [Ha _]. destruct (Z.eqb_spec xr ev) as [->|]; [|reflexivity].
  zb. apply value_at_above. bnd.
Qed.

Lemma lookup_split P R k :
  P <> [] -> ordered P -> atmost k P -> above k R ->
  lookup (P ++ R) k = Some (last_val P).
Proof.
  intros Hne Ho HP HR. unfold lookup.
  rewrite upper_bound_app by assumption.
  rewrite upper_bound_begin by assumption.
  rewrite prev_begin; auto.
  - simpl. now apply find_last.
  - intros k' Hk'. destruct R as [|[k'' x''] R]; [discriminate|].
    injection Hk' as ->. inv_bounds. bnd.
Qed.

(** On an ordered map [operator[]] is defined exactly from the first key
    on, and there it computes [value_at]. *)
Lemma lookup_ordered d m k :
  ordered m ->
  lookup m k =
  match m with
  | [] => None
  | (k0, _) :: _ => if k0 <=? k then Some (value_at d m k) else None
  end.
Proof.
  intros Ho. destruct m as [|[k0 v0] m]; [reflexivity|].
  destruct (Z.leb_spec k0 k) as [Hle|Hgt].
  - destruct (split_key _ k Ho) as (L & B & R & E & HL & HLb & HR & HRa).
    set (P := L ++ entry k B).
    assert (EP : (k0, v0) :: m = P ++ R) by (unfold P; now rewrite <- app_assoc).
    assert (HPm : atmost k P) by (unfold P; bnd).
    assert (HPn : P <> []).
    { intros E0. rewrite E0 in EP. simpl in EP. subst R. inv_bounds. lia. }
    assert (HPo : ordered P).
    { rewrite EP in Ho. apply ordered_app in Ho. tauto. }
    rewrite EP, lookup_split, value_at_app_above, value_at_atmost; auto.
  - unfold lookup. simpl. destruct (Z.ltb_spec k k0); [|lia].
    unfold prev. simpl. now rewrite Z.eqb_refl.
Qed.

Lemma lookup_value_at d lowest m k :
  wf lowest m = true -> lowest <= k ->
  lookup m k = Some (value_at d m k).
Proof.
  intros Hwf Hk. apply wf_inv in Hwf. destruct Hwf as [(v & rest & ->) Ho].
  rewrite (lookup_ordered d) by assumption.
  destruct (Z.leb_spec lowest k); [reflexivity|lia].
Qed.

(** ** The function after [assign], on a split map *)

Lemma assign_segments lowest m b e v :
  wf lowest m = true -> lowest <= b -> b < e ->
  exists L B M E R,
    m = L ++ entry b B ++ M ++ entry e E ++ R /\
    segments L B M R b e /\
    L ++ entry b B <> [] /\
    assign m b e v = Some (assign_result L B M E R b e v) /\
    wf lowest (assign_result L B M E R b e v) = true.
Proof.
  intros Hwf Hb Hlt.
  destruct (wf_segments lowest m b e Hwf Hb Hlt)
    as (L & B & M & E & R & Em & Hs & Hbeg).
  exists L, B, M, E, R.
  split; [exact Em | split; [exact Hs | split; [|split]]].
  - intros E0. rewrite E0 in Hbeg. discriminate.
  - subst m. now apply assign_closed_form.
  - destruct (assign_wf lowest m b e v Hwf Hb) as (m' & Ea & Hwf' & _).
    subst m. rewrite assign_closed_form in Ea by assumption.
    now injection Ea as <-.
Qed.

Lemma last_val_entry L b B v :
  L ++ entry b B <> [] ->
  last_val (L ++ entry b (B_after L B v)) = v /\
  L ++ entry b (B_after L B v) <> [].
Proof.
  intros Hne. unfold B_after. destruct B as [w|].
  - split.
    + unfold last_val. simpl. now rewrite last_last.
    + intros E0. apply app_eq_nil in E0. destruct E0. discriminate.
  - simpl in Hne. rewrite app_nil_r in Hne.
    destruct (Z.eqb_spec (last_val L) v).
    + simpl. now rewrite app_nil_r.
    + split.
      * unfold last_val. simpl. now rewrite last_last.
      * intros E0. apply app_eq_nil in E0. destruct E0. discriminate.
Qed.

Lemma value_at_left L B M E R b e v d k :
  segments L B M R b e -> k < b ->
  value_at d (assign_result L B M E R b e v) k =
  value_at d (L ++ entry b B ++ M ++ entry e E ++ R) k.
Proof.
  intros Hs Hk.
  destruct (tail_of_ordered (tail_value L B M v) L B M R b e E v Hs) as [_ Ht].
  destruct Hs as [Hlt Hfirst HLo HLb HMo HMa HMb HRo HRa].
  unfold assign_result. rewrite !value_at_app_above; auto.
  - bnd.
  - bnd.
Qed.

Lemma value_at_range L B M E R b e v d k :
  segments L B M R b e -> L ++ entry b B <> [] -> b <= k ->
  above k (tail_of (tail_value L B M v) M E R e v) ->
  value_at d (assign_result L B M E R b e v) k = v.
Proof.
  intros Hs Hne Hk Ht.
  destruct Hs as [Hlt Hfirst HLo HLb HMo HMa HMb HRo HRa].
  destruct (last_val_entry L b B v Hne) as [Hv Hne'].
  unfold assign_result. rewrite app_assoc, value_at_app_above by assumption.
  rewrite value_at_atmost; auto.
  bnd.
Qed.

Lemma tail_of_above_range ev M E R e v k :
  k < e -> above e R -> E <> None \/ R <> [] \/ M = [] ->
  above k (tail_of ev M E R e v).
Proof.
  intros Hk HR Hc. pose proof (above_drop_redundant e ev R HR).
  unfold tail_of. destruct E as [u|]; [bnd|].
  destruct (ev =? v); [|bnd].
  destruct R as [|kr R]; [|bnd].
  destruct Hc as [Hc|[Hc|Hc]]; try congruence. subst M. constructor.
Qed.

Lemma tail_value_correct L B M b v :
  L ++ entry b B <> [] -> B_after L B v <> None \/ M = [] ->
  tail_value L B M v = last_val (L ++ entry b B ++ M).
Proof.
  intros Hne Hc. unfold tail_value.
  destruct (B_after L B v) eqn:EB.
  - destruct M as [|kv M].
    + rewrite app_nil_r. destruct B as [w|]; simpl.
      * unfold last_val. now rewrite last_last.
      * now rewrite app_nil_r.
    + now rewrite app_assoc, last_val_app by congruence.
  - destruct Hc as [Hc|Hc]; [congruence|]. subst M.
    unfold B_after in EB. destruct B; [discriminate|].
    destruct (Z.eqb_spec (last_val L) v); [|discriminate].
    simpl. now rewrite !app_nil_r.
Qed.

Lemma value_at_right L B M E R b e v d k :
  segments L B M R b e -> L ++ entry b B <> [] -> e <= k ->
  B_after L B v <> None \/ E <> None \/ M = [] ->
  value_at d (assign_result L B M E R b e v) k =
  value_at d (L ++ entry b B ++ M ++ entry e E ++ R) k.
Proof.
  intros Hs Hne Hk Hc.
  destruct Hs as [Hlt Hfirst HLo HLb HMo HMa HMb HRo HRa].
  destruct (last_val_entry L b B v Hne) as [Hv Hne'].
  assert (HP' : atmost k (L ++ entry b (B_after L B v)))
    by bnd.
  assert (HP : atmost k (L ++ entry b B)) by bnd.
  assert (HM : atmost k M) by bnd.
  unfold assign_result, tail_of.
  destruct E as [u|].
  - replace (L ++ entry b (B_after L B v) ++ (e, u) :: R)
      with ((L ++ entry b (B_after L B v) ++ [(e, u)]) ++ R)
      by (now rewrite <- !app_assoc).
    replace (L ++ entry b B ++ M ++ entry e (Some u) ++ R)
      with ((L ++ entry b B ++ M ++ [(e, u)]) ++ R)
      by (now rewrite <- !app_assoc).
    rewrite !value_at_app_atmost by bnd.
    cbn [value_at]. destruct (Z.leb_spec e k); [reflexivity | lia].
  - assert (Hev : tail_value L B M v = last_val (L ++ entry b B ++ M)).
    { apply tail_value_correct; [assumption|].
      destruct Hc as [Hc|[Hc|Hc]];
        [left; assumption | congruence | right; assumption]. }
    assert (Hold : forall d', value_at d' (L ++ entry b B ++ M) k =
                              tail_value L B M v).
    { intros d'. rewrite Hev. apply value_at_atmost.
      - intros E0. rewrite app_assoc in E0. apply app_eq_nil in E0. tauto.
      - bnd. }
    cbn [entry app].
    replace (L ++ entry b B ++ M ++ R) with ((L ++ entry b B ++ M) ++ R)
      by (now rewrite <- !app_assoc).
    rewrite (value_at_app_atmost d (L ++ entry b B ++ M))
      by bnd.
    rewrite Hold.
    destruct (Z.eqb_spec (tail_value L B M v) v) as [E1|E1].
    + destruct R as [|kr R].
      * cbn [value_at].
        rewrite app_assoc, value_at_app_atmost by assumption.
        rewrite (value_at_atmost d (L ++ entry b (B_after L B v))) by auto.
        rewrite Hv. destruct M as [|kv M]; [now rewrite E1|].
        rewrite value_at_atmost by (auto; congruence).
        now rewrite Hev, !app_assoc, last_val_app by congruence.
      * rewrite app_assoc, value_at_app_atmost by assumption.
        rewrite (value_at_atmost d (L ++ entry b (B_after L B v))) by auto.
        now rewrite Hv, E1.
    + replace (L ++ entry b (B_after L B v) ++
                 (e, tail_value L B M v) :: drop_redundant (tail_value L B M v) R)
        with ((L ++ entry b (B_after L B v) ++ [(e, tail_value L B M v)]) ++
                 drop_redundant (tail_value L B M v) R)
        by (now rewrite <- !app_assoc).
      rewrite value_at_app_atmost by bnd.
      rewrite (value_at_atmost d
                 (L ++ entry b (B_after L B v) ++ [(e, tail_value L B M v)])).
      * rewrite !app_assoc. unfold last_val at 1. rewrite last_last. simpl.
        now apply value_at_drop_redundant.
      * intros E0. repeat (apply app_eq_nil in E0; destruct E0 as [_ E0]).
        discriminate.
      * bnd.
Qed.

(** ** Reading the segments off the stored keys *)

Section Segments.

Variables (L : StdMap.t) (B : option V) (M : StdMap.t) (E : option V)
  (R : StdMap.t) (b e : K).

Hypothesis Hs : segments L B M R b e.

Let m := L ++ entry b B ++ M ++ entry e E ++ R.

Lemma in_keys_segments k :
  In k (keys m) <->
  In k (keys L) \/ (k = b /\ B <> None) \/ In k (keys M) \/
  (k = e /\ E <> None) \/ In k (keys R).
Proof.
  unfold m. rewrite !keys_app, !in_app_iff.
  destruct B, E; simpl; intuition congruence.
Qed.

Lemma key_bounds k :
  (In k (keys L) -> k < b) /\ (In k (keys M) -> b < k < e) /\
  (In k (keys R) -> e < k).
Proof.
  destruct Hs as [Hlt Hfirst HLo HLb HMo HMa HMb HRo HRa].
  unfold keys, below, above in *. rewrite !in_map_iff.
  rewrite Forall_forall in HLb, HMa, HMb, HRa.
  split; [|split]; intros (kv & <- & Hin).
  - now apply HLb.
  - split; [now apply HMa | now apply HMb].
  - now apply HRa.
Qed.

Lemma keyBegin_stored : In b (keys m) -> B <> None.
Proof.
  pose proof (seg_lt _ _ _ _ _ _ Hs). pose proof (key_bounds b) as (H1 & H2 & H3).
  rewrite in_keys_segments. intros [Hin|[Hin|[Hin|[Hin|Hin]]]];
    try tauto; try (specialize (H1 Hin); lia);
    try (specialize (H2 Hin); lia); try (specialize (H3 Hin); lia).
  destruct Hin. lia.
Qed.

Lemma keyEnd_stored : In e (keys m) -> E <> None.
Proof.
  pose proof (seg_lt _ _ _ _ _ _ Hs). pose proof (key_bounds e) as (H1 & H2 & H3).
  rewrite in_keys_segments. intros [Hin|[Hin|[Hin|[Hin|Hin]]]];
    try tauto; try (specialize (H1 Hin); lia);
    try (specialize (H2 Hin); lia); try (specialize (H3 Hin); lia).
  destruct Hin. lia.
Qed.

Lemma none_inside :
  (forall k, In k (keys m) -> ~ (b < k < e)) -> M = [].
Proof.
  intros H.
  assert (H0 : forall k, ~ In k (keys M)).
  { intros k Hin. apply (H k).
    - apply in_keys_segments. tauto.
    - now apply (key_bounds k). }
  clear H. destruct M as [|[k x] M']; [reflexivity|].
  exfalso. apply (H0 k). simpl. auto.
Qed.

Lemma some_above :
  (exists k, In k (keys m) /\ e <= k) -> E <> None \/ R <> [].
Proof.
  pose proof (seg_lt _ _ _ _ _ _ Hs).
  intros (k & Hin & Hk). pose proof (key_bounds k) as (H1 & H2 & H3).
  apply in_keys_segments in Hin.
  destruct Hin as [Hin|[Hin|[Hin|[Hin|Hin]]]];
    try (specialize (H1 Hin); lia); try (specialize (H2 Hin); lia).
  - destruct Hin. lia.
  - tauto.
  - right. intros ->. contradiction.
Qed.

Lemma value_at_keyBegin d v :
  L ++ entry b B <> [] -> B_after L B v = None -> value_at d m b = v.
Proof.
  destruct Hs as [Hlt Hfirst HLo HLb HMo HMa HMb HRo HRa].
  intros Hne HB. unfold B_after in HB. destruct B as [w|]; [discriminate|].
  destruct (Z.eqb_spec (last_val L) v) as [Hv|]; [|discriminate].
  unfold m. cbn [entry app] in *. rewrite app_nil_r in Hne.
  rewrite value_at_app_above by bnd.
  rewrite value_at_atmost; auto. bnd.
Qed.

End Segments.

Lemma assign_result_length L B M E R b e v :
  (length (assign_result L B M E R b e v)
   <= length (L ++ entry b B ++ M ++ entry e E ++ R) + 2)%nat.
Proof.
  unfold assign_result, tail_of, B_after. rewrite !length_app.
  assert (length (drop_redundant (tail_value L B M v) R) <= length R)%nat.
  { unfold drop_redundant. destruct R as [|[k x] R']; simpl; auto.
    destruct (x =? tail_value L B M v); simpl; lia. }
  destruct B as [w|], E as [u|]; simpl;
    repeat match goal with
    | |- context [if ?c then _ else _] => destruct c; simpl
    | |- context [match R with [] => _ | _ => _ end] => destruct R; simpl
    end; simpl in *; try lia.
Qed.

Lemma ordered_length_within m lo hi :
  ordered m -> Forall (fun kv => lo <= fst kv <= hi) m -> lo <= hi + 1 ->
  Z.of_nat (length m) <= hi - lo + 1.
Proof.
  revert lo. induction m as [|[k x] m IH]; intros lo Ho Hin Hlo.
  - simpl. lia.
  - destruct Ho as [Ha Ho]. apply Forall_cons_iff in Hin.
    destruct Hin as [Hk Hin]. simpl in Hk, Ha.
    assert (Z.of_nat (length m) <= hi - (k + 1) + 1).
    { apply IH; auto; [|lia]. unfold above in Ha.
      rewrite Forall_forall in *. intros kv Hkv.
      specialize (Ha _ Hkv). specialize (Hin _ Hkv). simpl in *. lia. }
    cbn [length]. lia.
Qed.

Lemma wf_keys_atleast lowest m :
  wf lowest m = true -> atleast lowest m.
Proof.
  intros Hwf. apply wf_inv in Hwf. destruct Hwf as [(v & rest & ->) [Ha _]].
  simpl in Ha. bnd.
Qed.

Lemma reachable_keys_within lowest hi hist m :
  reachable lowest hist m -> calls_within hi hist -> lowest <= hi ->
  Forall (fun kv => lowest <= fst kv <= hi) m.
Proof.
  intros Hr Hc Hhi.
  pose proof (wf_keys_atleast _ _ (reachable_wf _ _ _ Hr)) as Hlow.
  assert (Hup : forall k, In k (keys m) -> k <= hi).
  { clear Hlow. induction Hr as [v | hist m b e v m' Hr IH Hb He Ha].
    - simpl. intros k [<-|[]]. assumption.
    - apply Forall_cons_iff in Hc. destruct Hc as [[Hb' He'] Hc].
      simpl in Hb', He'. intros k Hin.
      destruct (assign_wf lowest m b e v (reachable_wf _ _ _ Hr) Hb)
        as (m'' & E & _ & Hk & _).
      assert (m'' = m') by congruence. subst m''.
      destruct (Hk k Hin) as [->|[->|Hold]]; auto. }
  unfold atleast in Hlow. rewrite Forall_forall in *.
  intros kv Hin. split; [now apply Hlow|].
  apply Hup. unfold keys. now apply in_map.
Qed.

Lemma run_reachable lowest hist m calls :
  reachable lowest hist m ->
  Forall (fun c : call => lowest <= fst (fst c) /\ lowest <= snd (fst c)) calls ->
  exists m', run m calls = Some m' /\ reachable lowest (rev calls ++ hist) m'.
Proof.
  intros Hr Hc. revert hist m Hr.
  induction Hc as [|[[b e] v] calls [Hb He] _ IH]; intros hist m Hr.
  - exists m. split; [reflexivity | assumption].
  - simpl in Hb, He.
    destruct (assign_wf lowest m b e v (reachable_wf _ _ _ Hr) Hb)
      as (m1 & E1 & _).
    destruct (IH ((b, e, v) :: hist) m1) as (m' & Er & Hr').
    { now apply (reach_assign lowest hist m b e v). }
    exists m'. cbn [run]. rewrite E1. split; [assumption|].
    cbn [rev]. now rewrite <- app_assoc.
Qed.

(** ** Further properties of the code *)

(** X1 (constructor, lines 13-18): a freshly constructed map associates
    every representable key with the value it was constructed with. *)
Theorem constructor_maps_every_key lowest val k :
  lowest <= k -> lookup (interval_map lowest val) k = Some val.
Proof.
  intros Hk. unfold lookup, interval_map, prev. simpl.
  destruct (Z.ltb_spec k lowest); [lia|]. simpl. now rewrite Z.eqb_refl.
Qed.

Lemma constructor_maps_every_key_witness :
  0 <= 7 /\ lookup (interval_map 0 3) 7 = Some 3.
Proof.
  assert (H : 0 <= 7) by lia.
  split; [exact H | exact (constructor_maps_every_key 0 3 7 H)].
Defined.

(** X2 (assign, lines 27-57): after [assign(keyBegin, keyEnd, val)] on a
    non-empty range, looking up [keyBegin] yields [val]. *)
Theorem assign_sets_keyBegin lowest m b e v :
  wf lowest m = true -> lowest <= b -> b < e ->
  exists m', assign m b e v = Some m' /\ lookup m' b = Some v.
Proof.
  intros Hwf Hb Hlt.
  destruct (assign_segments lowest m b e v Hwf Hb Hlt)
    as (L & B & M & E & R & Em & Hs & Hne & Ea & Hwf').
  eexists. split; [exact Ea|].
  rewrite (lookup_value_at 0 lowest) by assumption. f_equal.
  apply value_at_range; auto; [lia|].
  now destruct (tail_of_ordered (tail_value L B M v) L B M R b e E v Hs).
Qed.

Lemma assign_sets_keyBegin_witness :
  wf 0 [(0, 0); (3, 5); (9, 0)] = true /\ 0 <= 1 /\ 1 < 6 /\
  exists m', assign [(0, 0); (3, 5); (9, 0)] 1 6 0 = Some m' /\
             lookup m' 1 = Some 0.
Proof.
  assert (H1 : wf 0 [(0, 0); (3, 5); (9, 0)] = true) by reflexivity.
  assert (H2 : 0 <= 1) by lia.
  assert (H3 : 1 < 6) by lia.
  split; [exact H1 | split; [exact H2 | split; [exact H3 |]]].
  exact (assign_sets_keyBegin 0 _ 1 6 0 H1 H2 H3).
Defined.

(** X3 (assign, lines 27-80): [assign] never changes what a key below
    [keyBegin] looks up. *)
Theorem assign_keeps_keys_below_keyBegin lowest m b e v :
  wf lowest m = true -> lowest <= b ->
  exists m', assign m b e v = Some m' /\
    forall k, lowest <= k -> k < b -> lookup m' k = lookup m k.
Proof.
  intros Hwf Hb. destruct (Z.lt_ge_cases b e) as [Hlt|Hge].
  - destruct (assign_segments lowest m b e v Hwf Hb Hlt)
      as (L & B & M & E & R & Em & Hs & Hne & Ea & Hwf').
    eexists. split; [exact Ea|]. intros k Hk Hkb.
    rewrite (lookup_value_at 0 lowest _ _ Hwf' Hk).
    rewrite (lookup_value_at 0 lowest _ _ Hwf Hk).
    f_equal. subst m. now apply value_at_left.
  - exists m. rewrite assign_empty by lia. auto.
Qed.

Lemma assign_keeps_keys_below_keyBegin_witness :
  wf 0 [(0, 0); (3, 5); (9, 0)] = true /\ 0 <= 4 /\
  exists m', assign [(0, 0); (3, 5); (9, 0)] 4 6 1 = Some m' /\
    forall k, 0 <= k -> k < 4 ->
      lookup m' k = lookup [(0, 0); (3, 5); (9, 0)] k.
Proof.
  assert (H1 : wf 0 [(0, 0); (3, 5); (9, 0)] = true) by reflexivity.
  assert (H2 : 0 <= 4) by lia.
  split; [exact H1 | split; [exact H2 |]].
  exact (assign_keeps_keys_below_keyBegin 0 _ 4 6 1 H1 H2).
Defined.

(** X4 (assign, lines 59-79): when some stored key is at or above
    [keyEnd], or no stored key lies strictly between [keyBegin] and
    [keyEnd], every key of [keyBegin, keyEnd) looks up [val] after the
    call. *)
Theorem assign_overwrites_range lowest m b e v :
  wf lowest m = true -> lowest <= b -> b < e ->
  (exists k', In k' (keys m) /\ e <= k') \/
  (forall k', In k' (keys m) -> ~ (b < k' < e)) ->
  exists m', assign m b e v = Some m' /\
    forall k, b <= k -> k < e -> lookup m' k = Some v.
Proof.
  intros Hwf Hb Hlt Hc.
  destruct (assign_segments lowest m b e v Hwf Hb Hlt)
    as (L & B & M & E & R & Em & Hs & Hne & Ea & Hwf').
  eexists. split; [exact Ea|]. intros k Hk Hke.
  rewrite (lookup_value_at 0 lowest) by (auto; lia). f_equal.
  apply value_at_range; auto.
  apply tail_of_above_range; auto; [now destruct Hs|].
  subst m. destruct Hc as [Hc|Hc].
  - destruct (some_above L B M E R b e Hs Hc); auto.
  - right. right. now apply (none_inside L B M E R b e Hs).
Qed.

Lemma assign_overwrites_range_witness :
  wf 0 [(0, 0); (3, 5); (9, 0)] = true /\ 0 <= 1 /\ 1 < 6 /\
  ((exists k', In k' (keys [(0, 0); (3, 5); (9, 0)]) /\ 6 <= k') \/
   (forall k', In k' (keys [(0, 0); (3, 5); (9, 0)]) -> ~ (1 < k' < 6))) /\
  exists m', assign [(0, 0); (3, 5); (9, 0)] 1 6 0 = Some m' /\
    forall k, 1 <= k -> k < 6 -> lookup m' k = Some 0.
Proof.
  assert (H1 : wf 0 [(0, 0); (3, 5); (9, 0)] = true) by reflexivity.
  assert (H2 : 0 <= 1) by lia.
  assert (H3 : 1 < 6) by lia.
  assert (H4 : (exists k', In k' (keys [(0, 0); (3, 5); (9, 0)]) /\ 6 <= k') \/
     (forall k', In k' (keys [(0, 0); (3, 5); (9, 0)]) -> ~ (1 < k' < 6))).
  { left. exists 9. split; [simpl; auto | lia]. }
  split; [exact H1 | split; [exact H2 | split; [exact H3 | split; [exact H4 |]]]].
  exact (assign_overwrites_range 0 _ 1 6 0 H1 H2 H3 H4).
Defined.

(** X5 (assign, lines 36-77): when [keyBegin] is a stored key, or the value
    looked up at [keyBegin] before the call differs from [val], or [keyEnd]
    is a stored key, or no stored key lies strictly between the two, then
    [assign] does not change what a key at or above [keyEnd] looks up. *)
Theorem assign_keeps_keys_from_keyEnd lowest m b e v :
  wf lowest m = true -> lowest <= b -> b < e ->
  In b (keys m) \/ lookup m b <> Some v \/ In e (keys m) \/
  (forall k', In k' (keys m) -> ~ (b < k' < e)) ->
  exists m', assign m b e v = Some m' /\
    forall k, e <= k -> lookup m' k = lookup m k.
Proof.
  intros Hwf Hb Hlt Hc.
  destruct (assign_segments lowest m b e v Hwf Hb Hlt)
    as (L & B & M & E & R & Em & Hs & Hne & Ea & Hwf').
  eexists. split; [exact Ea|]. intros k Hk.
  rewrite (lookup_value_at 0 lowest _ _ Hwf') by lia.
  rewrite (lookup_value_at 0 lowest _ _ Hwf) by lia.
  f_equal. rewrite Em. apply value_at_right; auto.
  destruct Hc as [Hc|[Hc|[Hc|Hc]]].
  - left. rewrite Em in Hc.
    pose proof (keyBegin_stored L B M E R b e Hs Hc).
    unfold B_after. destruct B; congruence.
  - left. intros HB. apply Hc.
    rewrite (lookup_value_at 0 lowest _ _ Hwf Hb). f_equal.
    rewrite Em. now apply value_at_keyBegin.
  - right. left. rewrite Em in Hc.
    now apply (keyEnd_stored L B M E R b e Hs).
  - right. right. rewrite Em in Hc.
    now apply (none_inside L B M E R b e Hs).
Qed.

Lemma assign_keeps_keys_from_keyEnd_witness :
  wf 0 [(0, 0); (3, 5); (9, 0)] = true /\ 0 <= 1 /\ 1 < 6 /\
  (In 1 (keys [(0, 0); (3, 5); (9, 0)]) \/
   lookup [(0, 0); (3, 5); (9, 0)] 1 <> Some 4 \/
   In 6 (keys [(0, 0); (3, 5); (9, 0)]) \/
   (forall k', In k' (keys [(0, 0); (3, 5); (9, 0)]) -> ~ (1 < k' < 6))) /\
  exists m', assign [(0, 0); (3, 5); (9, 0)] 1 6 4 = Some m' /\
    forall k, 6 <= k -> lookup m' k = lookup [(0, 0); (3, 5); (9, 0)] k.
Proof.
  assert (H1 : wf 0 [(0, 0); (3, 5); (9, 0)] = true) by reflexivity.
  assert (H2 : 0 <= 1) by lia.
  assert (H3 : 1 < 6) by lia.
  assert (H4 : In 1 (keys [(0, 0); (3, 5); (9, 0)]) \/
     lookup [(0, 0); (3, 5); (9, 0)] 1 <> Some 4 \/
     In 6 (keys [(0, 0); (3, 5); (9, 0)]) \/
     (forall k', In k' (keys [(0, 0); (3, 5); (9, 0)]) -> ~ (1 < k' < 6))).
  { right. left. discriminate. }
  split; [exact H1 | split; [exact H2 | split; [exact H3 | split; [exact H4 |]]]].
  exact (assign_keeps_keys_from_keyEnd 0 _ 1 6 4 H1 H2 H3 H4).
Defined.

Lemma first_assign_shape lowest v0 b e v :
  lowest <= b -> b < e ->
  assign (interval_map lowest v0) b e v =
  Some (if v0 =? v then [(lowest, v0)]
        else if b =? lowest then [(lowest, v); (e, v0)]
        else [(lowest, v0); (b, v); (e, v0)]).
Proof.
  intros Hb Hlt. unfold interval_map. cbn [insert].
  destruct (Z.eqb_spec b lowest) as [->|Hne].
  - assert (Hs : segments [] (Some v0) [] [] lowest e).
    { constructor;
        [assumption | congruence | exact I | constructor | exact I
        | constructor | constructor | exact I | constructor]. }
    pose proof (assign_closed_form [] (Some v0) [] None [] lowest e v Hs) as Hc.
    cbn in Hc. rewrite Hc. unfold assign_result, tail_of, tail_value. cbn.
    destruct (Z.eqb_spec v0 v); [subst|]; reflexivity.
  - assert (Hs : segments [(lowest, v0)] None [] [] b e).
    { assert (lowest < b) by lia.
      constructor;
        [assumption | congruence | simpl; split; [constructor | exact I]
        | bnd | exact I | constructor | constructor | exact I | constructor]. }
    pose proof (assign_closed_form [(lowest, v0)] None [] None [] b e v Hs) as Hc.
    cbn in Hc. rewrite Hc.
    unfold assign_result, tail_of, tail_value, B_after, last_val. cbn.
    destruct (Z.eqb_spec v0 v).
    + cbn. now rewrite Z.eqb_refl.
    + cbn. destruct (Z.eqb_spec v0 v); [contradiction|]. reflexivity.
Qed.

(** X6 (constructor and assign, lines 15-80): the first [assign] on a
    freshly constructed map is exact: afterwards the keys of
    [keyBegin, keyEnd) look up [val], every other representable key looks up
    the default, and no two consecutive nodes hold equal values. *)
Theorem first_assign_is_exact lowest v0 b e v :
  lowest <= b -> b < e ->
  exists m',
    assign (interval_map lowest v0) b e v = Some m' /\
    canonical m' = true /\
    forall k, lowest <= k ->
      lookup m' k = Some (if (b <=? k) && (k <? e) then v else v0).
Proof.
  intros Hb Hlt. eexists. split; [now apply first_assign_shape|].
  destruct (Z.eqb_spec v0 v) as [->|Hv].
  - split; [reflexivity|]. intros k Hk.
    rewrite (lookup_ordered 0) by (simpl; repeat split; bnd).
    simpl. zb; now destruct (_ && _).
  - destruct (Z.eqb_spec b lowest) as [->|Hne].
    + split; [simpl; zb|]. intros k Hk.
      rewrite (lookup_ordered 0) by (simpl; repeat split; bnd).
      simpl. zb.
    + split; [simpl; zb|]. intros k Hk.
      rewrite (lookup_ordered 0) by (simpl; repeat split; bnd).
      simpl. zb.
Qed.

Lemma first_assign_is_exact_witness :
  0 <= 2 /\ 2 < 5 /\
  exists m',
    assign (interval_map 0 0) 2 5 7 = Some m' /\
    canonical m' = true /\
    forall k, 0 <= k ->
      lookup m' k = Some (if (2 <=? k) && (k <? 5) then 7 else 0).
Proof.
  assert (H1 : 0 <= 2) by lia.
  assert (H2 : 2 < 5) by lia.
  split; [exact H1 | split; [exact H2 |]].
  exact (first_assign_is_exact 0 0 2 5 7 H1 H2).
Defined.

(** X7 (assign, lines 51 and 72): one [assign] makes the map at most two
    nodes longer. *)
Theorem assign_adds_at_most_two_nodes lowest m b e v :
  wf lowest m = true -> lowest <= b ->
  exists m', assign m b e v = Some m' /\
             (length m' <= length m + 2)%nat.
Proof.
  intros Hwf Hb. destruct (Z.lt_ge_cases b e) as [Hlt|Hge].
  - destruct (assign_segments lowest m b e v Hwf Hb Hlt)
      as (L & B & M & E & R & Em & Hs & Hne & Ea & Hwf').
    eexists. split; [exact Ea|]. rewrite Em. apply assign_result_length.
  - exists m. rewrite assign_empty by lia. split; [reflexivity | lia].
Qed.

Lemma assign_adds_at_most_two_nodes_witness :
  wf 0 [(0, 0)] = true /\ 0 <= 2 /\
  exists m', assign [(0, 0)] 2 5 7 = Some m' /\
             (length m' <= length [(0, 0)] + 2)%nat.
Proof.
  assert (H1 : wf 0 [(0, 0)] = true) by reflexivity.
  assert (H2 : 0 <= 2) by lia.
  split; [exact H1 | split; [exact H2 |]].
  exact (assign_adds_at_most_two_nodes 0 _ 2 5 7 H1 H2).
Defined.

(** X8 (assign as driven by the loop of IntervalMapTest, lines 97-110):
    from a freshly constructed map, every sequence of [assign] calls whose
    keys are representable runs to completion, without an undefined
    iterator operation, and ends in a reachable state. *)
Theorem calls_run_to_completion lowest v0 calls :
  Forall (fun c : call => lowest <= fst (fst c) /\ lowest <= snd (fst c))
    calls ->
  exists m', run (interval_map lowest v0) calls = Some m' /\
             reachable lowest (rev calls) m'.
Proof.
  intros Hc.
  destruct (run_reachable lowest [] (interval_map lowest v0) calls
              (reach_init lowest v0) Hc) as (m' & Er & Hr).
  exists m'. rewrite app_nil_r in Hr. auto.
Qed.

Lemma calls_run_to_completion_witness :
  Forall (fun c : call => 0 <= fst (fst c) /\ 0 <= snd (fst c))
    [(3, 9, 5); (1, 6, 0)] /\
  exists m', run (interval_map 0 0) [(3, 9, 5); (1, 6, 0)] = Some m' /\
             reachable 0 (rev [(3, 9, 5); (1, 6, 0)]) m'.
Proof.
  assert (H : Forall (fun c : call => 0 <= fst (fst c) /\ 0 <= snd (fst c))
                [(3, 9, 5); (1, 6, 0)]).
  { repeat constructor; simpl; lia. }
  split; [exact H | exact (calls_run_to_completion 0 0 _ H)].
Defined.

(** X9 (operator[], lines 82-85): on an ordered map the decrement of
    [upper_bound(key)] is undefined exactly when every stored key is above
    [key]; otherwise the lookup returns a value. *)
Theorem lookup_undefined_iff_no_key_at_most m k :
  ordered m ->
  (lookup m k = None <-> forall k', In k' (keys m) -> k < k').
Proof.
  intros Ho. rewrite (lookup_ordered 0) by assumption.
  destruct m as [|[k0 v0] m]; [simpl; tauto|].
  destruct (Z.leb_spec k0 k) as [Hle|Hgt].
  - split; [discriminate|]. intros H. specialize (H k0). simpl in H.
    assert (k < k0) by auto. lia.
  - split; [|reflexivity]. intros _ k' [<-|Hin]; [assumption|].
    destruct Ho as [Ha _]. apply in_map_iff in Hin.
    destruct Hin as (kv & <- & Hin). unfold above in Ha.
    rewrite Forall_forall in Ha. specialize (Ha _ Hin). simpl in Ha. lia.
Qed.

Lemma lookup_undefined_iff_no_key_at_most_witness :
  ordered [(3, 5); (9, 0)] /\
  (lookup [(3, 5); (9, 0)] 2 = None <->
   forall k', In k' (keys [(3, 5); (9, 0)]) -> 2 < k').
Proof.
  assert (H : ordered [(3, 5); (9, 0)]).
  { simpl. repeat split; repeat constructor; simpl; lia. }
  split; [exact H | exact (lookup_undefined_iff_no_key_at_most _ 2 H)].
Defined.

(** X10 (assign, lines 34-47): on an ordered map and a non-empty range,
    [assign] reaches an undefined iterator operation (the decrement of
    [begin()] at line 47) exactly when every stored key is above
    [keyBegin]; otherwise it runs to completion. *)
Theorem assign_undefined_iff_no_key_at_most m b e v :
  ordered m -> b < e ->
  (assign m b e v = None <-> forall k', In k' (keys m) -> b < k').
Proof.
  intros Ho Hlt. destruct m as [|[k0 v0] m].
  - split; [simpl; tauto|]. intros _. unfold assign.
    destruct (Z.ltb_spec b e); [reflexivity | lia].
  - destruct (Z.le_gt_cases k0 b) as [Hle|Hgt].
    + assert (Hwf : wf k0 ((k0, v0) :: m) = true).
      { apply wf_inv. split; eauto. }
      destruct (assign_wf k0 _ b e v Hwf Hle) as (m' & Ea & _).
      rewrite Ea. split; [discriminate|]. intros H. specialize (H k0).
      simpl in H. assert (b < k0) by auto. lia.
    + split.
      * intros _ k' [<-|Hin]; [simpl; lia|].
        destruct Ho as [Ha _]. apply in_map_iff in Hin.
        destruct Hin as (kv & <- & Hin). unfold above in Ha.
        rewrite Forall_forall in Ha. specialize (Ha _ Hin). simpl in Ha. lia.
      * intros _. unfold assign, assign_keyBegin.
        destruct (Z.ltb_spec b e); [|lia]. cbn [negb lower_bound].
        destruct (Z.ltb_spec k0 b); [lia|].
        cbn [is_end negb first find]. rewrite Z.eqb_refl.
        destruct (Z.eqb_spec k0 b); [lia|].
        unfold prev. cbn [prev_from]. now rewrite Z.eqb_refl.
Qed.

Lemma assign_undefined_iff_no_key_at_most_witness :
  ordered [(3, 5); (9, 0)] /\ 1 < 6 /\
  (assign [(3, 5); (9, 0)] 1 6 0 = None <->
   forall k', In k' (keys [(3, 5); (9, 0)]) -> 1 < k').
Proof.
  assert (H : ordered [(3, 5); (9, 0)]).
  { simpl. repeat split; repeat constructor; simpl; lia. }
  assert (H2 : 1 < 6) by lia.
  split; [exact H | split; [exact H2 |]].
  exact (assign_undefined_iff_no_key_at_most _ 1 6 0 H H2).
Defined.

(** X11 (assign under IntervalMapTest, lines 93-110): when every key
    passed to [assign] is at most [hi] (9 in the test), every stored key
    lies between the minimum key and [hi], and the map never holds more
    than [hi - lowest + 1] nodes (10 in the test). *)
Theorem bounded_calls_keep_map_small lowest hi hist m :
  reachable lowest hist m -> calls_within hi hist -> lowest <= hi ->
  Forall (fun kv => lowest <= fst kv <= hi) m /\
  Z.of_nat (length m) <= hi - lowest + 1.
Proof.
  intros Hr Hc Hhi.
  pose proof (reachable_keys_within lowest hi hist m Hr Hc Hhi) as Hk.
  split; [assumption|].
  apply ordered_length_within; auto; [|lia].
  pose proof (reachable_wf _ _ _ Hr) as Hwf. apply wf_inv in Hwf. tauto.
Qed.

Lemma bounded_calls_keep_map_small_witness :
  reachable 0 [(2, 5, 7)] [(0, 0); (2, 7); (5, 0)] /\
  calls_within 9 [(2, 5, 7)] /\ 0 <= 9 /\
  (Forall (fun kv => 0 <= fst kv <= 9) [(0, 0); (2, 7); (5, 0)] /\
   Z.of_nat (length [(0, 0); (2, 7); (5, 0)]) <= 9 - 0 + 1).
Proof.
  assert (H : reachable 0 [(2, 5, 7)] [(0, 0); (2, 7); (5, 0)]).
  { apply (reach_assign 0 [] (interval_map 0 0) 2 5 7);
      [apply reach_init | lia | lia | reflexivity]. }
  assert (H2 : calls_within 9 [(2, 5, 7)]).
  { repeat constructor; simpl; lia. }
  assert (H3 : 0 <= 9) by lia.
  split; [exact H | split; [exact H2 | split; [exact H3 |]]].
  exact (bounded_calls_keep_map_small 0 9 _ _ H H2 H3).
Defined.

(** X12 (assign, lines 36-57 and 78-79): [assign] removes no node whose
    key is below [keyBegin] and changes none of their values, and a node
    stored at [keyBegin] stays, holding [val]. *)
Theorem assign_keeps_nodes_up_to_keyBegin lowest m b e v :
  wf lowest m = true -> lowest <= b -> b < e ->
  exists m', assign m b e v = Some m' /\
    (forall k x, In (k, x) m -> k < b -> In (k, x) m') /\
    (In b (keys m) -> In (b, v) m').
Proof.
  intros Hwf Hb Hlt.
  destruct (assign_segments lowest m b e v Hwf Hb Hlt)
    as (L & B & M & E & R & Em & Hs & Hne & Ea & Hwf').
  eexists. split; [exact Ea|]. split.
  - intros k x Hin Hk. unfold assign_result. apply in_or_app. left.
    rewrite Em in Hin. apply in_app_or in Hin. destruct Hin as [Hin|Hin]; auto.
    exfalso. destruct Hs as [_ _ _ _ _ HMa _ _ HRa].
    assert (Ha : atleast b (entry b B ++ M ++ entry e E ++ R)) by bnd.
    unfold atleast in Ha. rewrite Forall_forall in Ha.
    specialize (Ha _ Hin). simpl in Ha. lia.
  - intros Hin. rewrite Em in Hin.
    pose proof (keyBegin_stored L B M E R b e Hs Hin) as HB.
    unfold assign_result, B_after. destruct B as [w|]; [|congruence].
    apply in_or_app. right. simpl. auto.
Qed.

Lemma assign_keeps_nodes_up_to_keyBegin_witness :
  wf 0 [(0, 0); (3, 5); (9, 0)] = true /\ 0 <= 3 /\ 3 < 6 /\
  exists m', assign [(0, 0); (3, 5); (9, 0)] 3 6 1 = Some m' /\
    (forall k x, In (k, x) [(0, 0); (3, 5); (9, 0)] -> k < 3 ->
       In (k, x) m') /\
    (In 3 (keys [(0, 0); (3, 5); (9, 0)]) -> In (3, 1) m').
Proof.
  assert (H1 : wf 0 [(0, 0); (3, 5); (9, 0)] = true) by reflexivity.
  assert (H2 : 0 <= 3) by lia.
  assert (H3 : 3 < 6) by lia.
  split; [exact H1 | split; [exact H2 | split; [exact H3 |]]].
  exact (assign_keeps_nodes_up_to_keyBegin 0 _ 3 6 1 H1 H2 H3).
Defined.
